(** * vcd2tex: reconstruction of channels from VCD tokens and their
    rendering as tikz-timing lines.

    A shallow embedding of [simulation.py].  The tokens come from the
    [vcd.reader] tokenizer of pyvcd; they are modelled as a tagged
    variant carrying the payload fields the program reads.  Python
    exceptions are results of the [Exc] monad, Python dictionaries are
    association lists kept in insertion order. *)

From Stdlib Require Import List ZArith Lia Bool String Ascii PrimFloat.
From Stdlib Require Import Sorting.Sorted Sorting.Permutation DecimalString.
Import ListNotations.
Local Open Scope string_scope.
Local Open Scope list_scope.
Local Open Scope Z_scope.

(** ** Exceptions *)

Inductive PyError : Type :=
| UnboundLocalError
| KeyError
| IndexError
| TypeError.

Inductive Exc (A : Type) : Type :=
| Ok (a : A)
| Raise (e : PyError).
Arguments Ok {A} a.
Arguments Raise {A} e.

Definition bind {A B : Type} (m : Exc A) (k : A -> Exc B) : Exc B :=
  match m with
  | Ok a => k a
  | Raise e => Raise e
  end.

Notation "x <- m ;; k" := (bind m (fun x => k))
  (at level 61, m at next level, right associativity).
Notation "' pat <- m ;; k" := (bind m (fun x => match x with pat => k end))
  (at level 61, pat pattern, m at next level, right associativity).

(** A [for] loop whose body may raise: the state is threaded from left to
    right and the first exception ends the loop. *)
Fixpoint for_each {A S : Type} (body : S -> A -> Exc S) (s : S) (xs : list A)
  : Exc S :=
  match xs with
  | [] => Ok s
  | x :: xs' => s' <- body s x ;; for_each body s' xs'
  end.

(** ** Dictionaries

    A Python [dict] keeps its keys in insertion order; assigning to a key
    that is present replaces the value and leaves the key where it is. *)

Section Dict.
Context {K V : Type}.
Variable eqb : K -> K -> bool.

Fixpoint dict_get (k : K) (d : list (K * V)) : option V :=
  match d with
  | [] => None
  | (k', v) :: d' => if eqb k k' then Some v else dict_get k d'
  end.

(** [k in d] *)
Definition dict_mem (k : K) (d : list (K * V)) : bool :=
  match dict_get k d with
  | Some _ => true
  | None => false
  end.

(** [d[k] = v] *)
Fixpoint dict_set (k : K) (v : V) (d : list (K * V)) : list (K * V) :=
  match d with
  | [] => [(k, v)]
  | (k', v') :: d' =>
      if eqb k k' then (k', v) :: d' else (k', v') :: dict_set k v d'
  end.

(** [d[k]] in an expression. *)
Definition dict_getitem (k : K) (d : list (K * V)) : Exc V :=
  match dict_get k d with
  | Some v => Ok v
  | None => Raise KeyError
  end.

End Dict.

Abbreviation Dict K V := (list (K * V)) (only parsing).
Definition dict_keys {K V : Type} (d : Dict K V) : list K := map fst d.
Definition dict_values {K V : Type} (d : Dict K V) : list V := map snd d.

(** ** Values carried by the tokens *)

Inductive PyVal : Type :=
| VStr (s : string)
| VInt (n : Z)
| VFloat (x : float).

(** [VarDecl.bit_index]: [None], an [int], or a pair of [int]s. *)
Inductive BitIndex : Type :=
| NoIndex
| Idx (i : Z)
| Range (msb lsb : Z).

Definition BitIndex_eqb (a b : BitIndex) : bool :=
  match a, b with
  | NoIndex, NoIndex => true
  | Idx i, Idx j => i =? j
  | Range a1 a2, Range b1 b2 => (a1 =? b1) && (a2 =? b2)
  | _, _ => false
  end.

Module ScopeDecl.
Record t : Type := mk { ident : string }.
End ScopeDecl.

Module VarDecl.
Record t : Type := mk
  { size : Z;
    id_code : string;
    reference : string;
    bit_index : BitIndex }.
End VarDecl.

(** [ScalarChange], [VectorChange], [RealChange] and [StringChange] are all
    named tuples [(id_code, value)]. *)
Module Change.
Record t : Type := mk
  { id_code : string;
    value : PyVal }.
End Change.

Inductive TokenKind : Type :=
| COMMENT | DATE | ENDDEFINITIONS | SCOPE | TIMESCALE | UPSCOPE | VAR
| VERSION | DUMPALL | DUMPOFF | DUMPON | DUMPVARS | END
| CHANGE_TIME | CHANGE_SCALAR | CHANGE_VECTOR | CHANGE_REAL | CHANGE_STRING.

Definition TokenKind_eqb (a b : TokenKind) : bool :=
  match a, b with
  | COMMENT, COMMENT | DATE, DATE | ENDDEFINITIONS, ENDDEFINITIONS
  | SCOPE, SCOPE | TIMESCALE, TIMESCALE | UPSCOPE, UPSCOPE | VAR, VAR
  | VERSION, VERSION | DUMPALL, DUMPALL | DUMPOFF, DUMPOFF
  | DUMPON, DUMPON | DUMPVARS, DUMPVARS | END, END
  | CHANGE_TIME, CHANGE_TIME | CHANGE_SCALAR, CHANGE_SCALAR
  | CHANGE_VECTOR, CHANGE_VECTOR | CHANGE_REAL, CHANGE_REAL
  | CHANGE_STRING, CHANGE_STRING => true
  | _, _ => false
  end.

(** The kinds whose data this program never reads. *)
Inductive OtherKind : Type :=
| KComment | KDate | KEndDefinitions | KTimescale | KUpscope | KVersion
| KDumpAll | KDumpOff | KDumpOn | KDumpVars | KEnd.

Definition other_kind (k : OtherKind) : TokenKind :=
  match k with
  | KComment => COMMENT
  | KDate => DATE
  | KEndDefinitions => ENDDEFINITIONS
  | KTimescale => TIMESCALE
  | KUpscope => UPSCOPE
  | KVersion => VERSION
  | KDumpAll => DUMPALL
  | KDumpOff => DUMPOFF
  | KDumpOn => DUMPON
  | KDumpVars => DUMPVARS
  | KEnd => END
  end.

(** A token: its kind together with the data of that kind. *)
Inductive Token : Type :=
| TokScope (d : ScopeDecl.t)
| TokVar (d : VarDecl.t)
| TokChangeTime (t : Z)
| TokChangeScalar (c : Change.t)
| TokChangeVector (c : Change.t)
| TokChangeReal (c : Change.t)
| TokChangeString (c : Change.t)
| TokOther (k : OtherKind) (text : string).

Definition kind (token : Token) : TokenKind :=
  match token with
  | TokScope _ => SCOPE
  | TokVar _ => VAR
  | TokChangeTime _ => CHANGE_TIME
  | TokChangeScalar _ => CHANGE_SCALAR
  | TokChangeVector _ => CHANGE_VECTOR
  | TokChangeReal _ => CHANGE_REAL
  | TokChangeString _ => CHANGE_STRING
  | TokOther k _ => other_kind k
  end.

(** [token.data] of a value change. *)
Definition change_data (token : Token) : option Change.t :=
  match token with
  | TokChangeScalar c | TokChangeVector c
  | TokChangeReal c | TokChangeString c => Some c
  | _ => None
  end.

(** ** Python lists and strings *)

Fixpoint set_nth {A : Type} (n : nat) (v : A) (l : list A) : list A :=
  match l, n with
  | [], _ => []
  | _ :: l', O => v :: l'
  | x :: l', S n' => x :: set_nth n' v l'
  end.

(** [l[index] = v]: a negative index counts from the end. *)
Definition list_setitem {A : Type} (l : list A) (index : Z) (v : A)
  : Exc (list A) :=
  let n := Z.of_nat (List.length l) in
  let i := if index <? 0 then index + n else index in
  if (0 <=? i) && (i <? n) then Ok (set_nth (Z.to_nat i) v l)
  else Raise IndexError.

(** [l[0]] *)
Definition list_first {A : Type} (l : list A) : Exc A :=
  match l with
  | [] => Raise IndexError
  | x :: _ => Ok x
  end.

(** [''.join(l)]: every item has to be a [str]. *)
Fixpoint join_empty (l : list PyVal) : Exc string :=
  match l with
  | [] => Ok ""
  | VStr s :: l' => r <- join_empty l' ;; Ok (s ++ r)%string
  | _ :: _ => Raise TypeError
  end.

(** [sep.join(l)] on a list of strings. *)
Fixpoint str_join (sep : string) (l : list string) : string :=
  match l with
  | [] => ""
  | [s] => s
  | s :: l' => (s ++ sep ++ str_join sep l')%string
  end.

(** [str(n)] *)
Definition str_int (n : Z) : string := NilZero.string_of_int (Z.to_int n).

(** [a < b] on two [bit_index] values. *)
Definition bit_index_lt (a b : BitIndex) : Exc bool :=
  match a, b with
  | Idx i, Idx j => Ok (i <? j)
  | Range a1 a2, Range b1 b2 => Ok ((a1 <? b1) || ((a1 =? b1) && (a2 <? b2)))
  | _, _ => Raise TypeError
  end.

(** [sorted(l, key=lambda x: x.bit_index, reverse=True)]: a stable sort in
    descending order; a comparison of keys that Python does not support
    raises. *)
Fixpoint insert_desc (x : VarDecl.t) (l : list VarDecl.t)
  : Exc (list VarDecl.t) :=
  match l with
  | [] => Ok [x]
  | y :: l' =>
      lt <- bit_index_lt (VarDecl.bit_index x) (VarDecl.bit_index y) ;;
      if lt then r <- insert_desc x l' ;; Ok (y :: r) else Ok (x :: l)
  end.

Fixpoint sorted_desc (l : list VarDecl.t) : Exc (list VarDecl.t) :=
  match l with
  | [] => Ok []
  | x :: l' => s <- sorted_desc l' ;; insert_desc x s
  end.

(** ** The rendered model: [ChannelEvent], [Channel] *)

Module ChannelEvent.
Record t : Type := mk
  { time : Z;
    value : string }.
End ChannelEvent.

Module Channel.

Record t : Type := mk
  { size : Z;
    module : string;
    name : string;
    events : list ChannelEvent.t }.

(** The loop [while i < len(events) and events[i].time <= time: i += 1],
    entered at index [i] with [rest = events[i:]]; the result is the index
    at which it stops. *)
Fixpoint scan (rest : list ChannelEvent.t) (time : Z) (i : nat) : nat :=
  match rest with
  | [] => i
  | e :: rest' =>
      if ChannelEvent.time e <=? time then scan rest' time (S i) else i
  end.

Definition value_at (self : t) (time : Z) : string :=
  let i := scan (events self) time 0 in
  if Nat.eqb i 0 then "X"
  else
    match nth_error (events self) (i - 1) with
    | Some e => ChannelEvent.value e
    | None => "X" (* not reached: 0 < i <= len(events) *)
    end.

Definition next_event (self : t) (time : Z) : option ChannelEvent.t :=
  let i := scan (events self) time 0 in
  if Nat.leb (List.length (events self)) i then None
  else nth_error (events self) i.

(** [f'{signal_duration}{{{signal_type}}}'] *)
Definition segment_str (signal_duration : Z) (signal_type : string) : string :=
  (str_int signal_duration ++ "{" ++ signal_type ++ "}")%string.

(** The [while current_time < end] loop of [to_tikz_line].  Every turn that
    does not leave the loop moves [current_time] to a strictly later event
    time, so [fuel] bounds the number of turns; [None] means the fuel ran
    out (see [to_tikz_line_total]). *)
Fixpoint tikz_loop (fuel : nat) (self : t) (end_ : Z)
    (tikz_line : list string) (current_value : string) (current_time : Z)
  : option (list string) :=
  match fuel with
  | O => None
  | S fuel' =>
      if current_time <? end_ then
        match next_event self current_time with
        | None =>
            let signal_duration := end_ - current_time in
            Some (tikz_line ++ [segment_str signal_duration current_value])
        | Some ev =>
            let signal_duration := ChannelEvent.time ev - current_time in
            tikz_loop fuel' self end_
              (tikz_line ++ [segment_str signal_duration current_value])
              (ChannelEvent.value ev) (ChannelEvent.time ev)
        end
      else Some tikz_line
  end.

Definition to_tikz_line (self : t) (start end_ : Z) : option string :=
  option_map (str_join " ")
    (tikz_loop (S (List.length (events self))) self end_
       [(name self ++ " &")%string] (value_at self start) start).

(** The same loop collecting the (duration, symbol) pairs instead of their
    text. *)
Fixpoint segments_loop (fuel : nat) (self : t) (end_ : Z)
    (acc : list (Z * string)) (current_value : string) (current_time : Z)
  : option (list (Z * string)) :=
  match fuel with
  | O => None
  | S fuel' =>
      if current_time <? end_ then
        match next_event self current_time with
        | None => Some (acc ++ [(end_ - current_time, current_value)])
        | Some ev =>
            segments_loop fuel' self end_
              (acc ++ [(ChannelEvent.time ev - current_time, current_value)])
              (ChannelEvent.value ev) (ChannelEvent.time ev)
        end
      else Some acc
  end.

Definition segments (self : t) (start end_ : Z) : option (list (Z * string)) :=
  segments_loop (S (List.length (events self))) self end_ []
    (value_at self start) start.

End Channel.

Module Simulation.

Record t : Type := mk { channels : list Channel.t }.

(** The characters written [\t] and [\n] in the program. *)
Definition tab : string := String "009"%char EmptyString.
Definition newline : string := String "010"%char EmptyString.

(** [c.name in channel_names], for a collection of names. *)
Definition name_in (channel_names : list string) (c : Channel.t) : bool :=
  existsb (String.eqb (Channel.name c)) channel_names.

(** The loop [for channel in channels] of [to_tikz]; [None] only if a line
    ran out of fuel, which does not happen (see [to_tikz_total]). *)
Fixpoint tikz_rows (channels : list Channel.t) (start end_ : Z)
    (tikz_table : list string) : option (list string) :=
  match channels with
  | [] => Some tikz_table
  | channel :: rest =>
      match Channel.to_tikz_line channel start end_ with
      | Some line =>
          tikz_rows rest start end_ (tikz_table ++ [(tab ++ line)%string])
      | None => None
      end
  end.

(** The two markers are plain string literals of the program, so their
    doubled braces are part of the text. *)
Definition to_tikz (self : t) (start end_ : Z)
    (channel_names : option (list string)) : option string :=
  let tikz_table := ["\begin{{tikztimingtable}}"] in
  let channels :=
    match channel_names with
    | Some names => filter (name_in names) (channels self)
    | None => channels self
    end in
  match tikz_rows channels start end_ tikz_table with
  | Some tikz_table =>
      Some (str_join newline (tikz_table ++ ["\end{{tikztimingtable}}"]))
  | None => None
  end.

End Simulation.

(** ** [VcdSimulation]

    The object is its token list [_tokens]; the cached properties are
    functions of it. *)

Module VcdSimulation.

Abbreviation ScopeVars :=
  (Dict string (Dict string (Dict BitIndex VarDecl.t))) (only parsing).

Abbreviation TimeChanges := (Dict Z (list Change.t)) (only parsing).

Definition _filtered_tokens (tokens : list Token) (tokenKind : TokenKind)
  : list Token :=
  filter (fun token => TokenKind_eqb tokenKind (kind token)) tokens.

(** [timescale]: the data of the first TIMESCALE token, handed on as it is
    (here the text the token carries). *)
Definition timescale (tokens : list Token) : Exc string :=
  token <- list_first (_filtered_tokens tokens TIMESCALE) ;;
  match token with
  | TokOther _ data => Ok data
  | _ => Ok "" (* not reached: the token is of kind TIMESCALE *)
  end.

(** The body of the loop of [scope_vars]; [scope] is [None] while the local
    variable is unbound. *)
Definition scope_vars_step (st : option string * ScopeVars) (token : Token)
  : Exc (option string * ScopeVars) :=
  let '(scope, acc) := st in
  if TokenKind_eqb (kind token) SCOPE then
    match token with
    | TokScope d =>
        let scope := ScopeDecl.ident d in
        Ok (Some scope, dict_set String.eqb scope [] acc)
    | _ => Ok st
    end
  else if TokenKind_eqb (kind token) VAR then
    match token with
    | TokVar d =>
        let var := VarDecl.reference d in
        match scope with
        | None => Raise UnboundLocalError
        | Some scope =>
            channels <- dict_getitem String.eqb scope acc ;;
            let channels :=
              if negb (dict_mem String.eqb var channels)
              then dict_set String.eqb var [] channels else channels in
            vars <- dict_getitem String.eqb var channels ;;
            let vars := dict_set BitIndex_eqb (VarDecl.bit_index d) d vars in
            Ok (Some scope,
                dict_set String.eqb scope
                  (dict_set String.eqb var vars channels) acc)
        end
    | _ => Ok st
    end
  else Ok st.

Definition scope_vars (tokens : list Token) : Exc ScopeVars :=
  '(_, acc) <- for_each scope_vars_step (None, []) tokens ;; Ok acc.

(** The condition of the [elif] of [time_changes],
    [kind == CHANGE_SCALAR or kind == CHANGE_VECTOR
     or kind == CHANGE_REAL == kind == CHANGE_STRING]:
    the last disjunct is a chained comparison, the conjunction of its three
    adjacent comparisons. *)
Definition is_recorded_kind (k : TokenKind) : bool :=
  TokenKind_eqb k CHANGE_SCALAR
  || TokenKind_eqb k CHANGE_VECTOR
  || (TokenKind_eqb k CHANGE_REAL
      && TokenKind_eqb CHANGE_REAL k
      && TokenKind_eqb k CHANGE_STRING).

(** The body of the loop of [time_changes]; [time] is [None] while the local
    variable is unbound. *)
Definition time_changes_step (st : option Z * TimeChanges) (token : Token)
  : Exc (option Z * TimeChanges) :=
  let '(time, acc) := st in
  if TokenKind_eqb (kind token) CHANGE_TIME then
    match token with
    | TokChangeTime t => Ok (Some t, dict_set Z.eqb t [] acc)
    | _ => Ok st
    end
  else if is_recorded_kind (kind token) then
    match change_data token with
    | Some change =>
        match time with
        | None => Raise UnboundLocalError
        | Some time =>
            changes <- dict_getitem Z.eqb time acc ;;
            Ok (Some time, dict_set Z.eqb time (changes ++ [change]) acc)
        end
    | None => Ok st
    end
  else Ok st.

Definition time_changes (tokens : list Token) : Exc TimeChanges :=
  '(_, acc) <- for_each time_changes_step (None, []) tokens ;; Ok acc.

(** The body of [for var in vars] for one [change]. *)
Definition var_step (change : Change.t) (st : list PyVal * bool)
    (var : VarDecl.t) : Exc (list PyVal * bool) :=
  let '(value, has_changed) := st in
  if String.eqb (Change.id_code change) (VarDecl.id_code var) then
    match VarDecl.bit_index var with
    | NoIndex =>
        value <- list_setitem value 0 (Change.value change) ;; Ok (value, true)
    | Idx index =>
        value <- list_setitem value index (Change.value change) ;;
        Ok (value, true)
    | Range _ _ => Raise TypeError
    end
  else Ok st.

(** The body of [for change in changes]. *)
Definition change_step (vars : list VarDecl.t) (st : list PyVal * bool)
    (change : Change.t) : Exc (list PyVal * bool) :=
  for_each (var_step change) st vars.

(** The body of [for time, changes in self.time_changes.items()]. *)
Definition time_step (vars : list VarDecl.t)
    (st : list PyVal * list ChannelEvent.t) (item : Z * list Change.t)
  : Exc (list PyVal * list ChannelEvent.t) :=
  let '(value, acc) := st in
  let '(time, changes) := item in
  '(value, has_changed) <- for_each (change_step vars) (value, false) changes ;;
  if has_changed then
    text <- join_empty value ;;
    Ok (value, acc ++ [ChannelEvent.mk time text])
  else Ok (value, acc).

Definition to_events (tokens : list Token) (vars : Dict BitIndex VarDecl.t)
  : Exc (list ChannelEvent.t) :=
  let value := repeat (VStr "X") (List.length vars) in
  vars <- sorted_desc (dict_values vars) ;;
  items <- time_changes tokens ;;
  '(_, acc) <- for_each (time_step vars) (value, []) items ;;
  Ok acc.

(** The body of [for channel_name, vars in channels.items()]. *)
Definition channel_step (tokens : list Token) (module : string)
    (acc : list Channel.t) (item : string * Dict BitIndex VarDecl.t)
  : Exc (list Channel.t) :=
  let '(channel_name, vars) := item in
  let size := Z.of_nat (List.length vars) in
  events <- to_events tokens vars ;;
  Ok (acc ++ [Channel.mk size module channel_name events]).

(** The body of [for module, channels in self.scope_vars.items()]. *)
Definition scope_step (tokens : list Token) (acc : list Channel.t)
    (item : string * Dict string (Dict BitIndex VarDecl.t))
  : Exc (list Channel.t) :=
  let '(module, channels) := item in
  for_each (channel_step tokens module) acc channels.

Definition to_channel (tokens : list Token) : Exc (list Channel.t) :=
  scope_vars <- scope_vars tokens ;;
  for_each (scope_step tokens) [] scope_vars.

Definition to_simulation (tokens : list Token) : Exc Simulation.t :=
  channels <- to_channel tokens ;; Ok (Simulation.mk channels).

End VcdSimulation.

(** ** Notions used by the statements *)

(** The invariant of a Channel's event sequence: timestamps strictly
    increasing. *)
Definition strictly_increasing (evs : list ChannelEvent.t) : Prop :=
  StronglySorted (fun a b => ChannelEvent.time a < ChannelEvent.time b) evs.

(** No two consecutive events carry the same value. *)
Definition no_repeated_value (evs : list ChannelEvent.t) : Prop :=
  forall i a b,
    nth_error evs i = Some a -> nth_error evs (S i) = Some b ->
    ChannelEvent.value a <> ChannelEvent.value b.

(** Sum of the durations of a list of segments. *)
Definition total_duration (segs : list (Z * string)) : Z :=
  fold_right Z.add 0 (map fst segs).

(** Number of events strictly after [time]: the loop of [to_tikz_line]
    decreases it at every turn. *)
Definition later (evs : list ChannelEvent.t) (time : Z) : nat :=
  List.length (filter (fun e => time <? ChannelEvent.time e) evs).

(** The timestamps of the markers, in source order. *)
Definition markers (tokens : list Token) : list Z :=
  flat_map
    (fun token => match token with TokChangeTime t => [t] | _ => [] end)
    tokens.

(** The tokens before the next timestamp marker. *)
Fixpoint until_marker (tokens : list Token) : list Token :=
  match tokens with
  | [] => []
  | TokChangeTime _ :: _ => []
  | token :: rest => token :: until_marker rest
  end.

(** The changes that the loop of [time_changes] appends when it runs over
    [tokens]. *)
Definition recorded (tokens : list Token) : list Change.t :=
  flat_map
    (fun token =>
       if VcdSimulation.is_recorded_kind (kind token) then
         match change_data token with
         | Some change => [change]
         | None => []
         end
       else [])
    tokens.

(** Some change of the list carries the id-code of one of the
    declarations. *)
Definition touches (vars : list VarDecl.t) (changes : list Change.t) : bool :=
  existsb
    (fun change =>
       existsb
         (fun var =>
            String.eqb (Change.id_code change) (VarDecl.id_code var))
         vars)
    changes.

(** Every declaration of the Declaration Index. *)
Definition declarations
    (scope_vars : Dict string (Dict string (Dict BitIndex VarDecl.t)))
  : list VarDecl.t :=
  flat_map
    (fun scope => flat_map (fun channel => dict_values (snd channel))
                    (snd scope))
    scope_vars.

(** A change list, and a Timed Change Set, without the changes of one
    id-code. *)
Definition without (id_code : string) (changes : list Change.t)
  : list Change.t :=
  filter (fun change => negb (String.eqb (Change.id_code change) id_code))
    changes.

Definition strip (id_code : string) (items : Dict Z (list Change.t))
  : Dict Z (list Change.t) :=
  map (fun item => (fst item, without id_code (snd item))) items.

(** Two outcomes agree: the same exception, or results related by [R]. *)
Definition exc_rel {A : Type} (R : A -> A -> Prop) (a b : Exc A) : Prop :=
  match a, b with
  | Ok x, Ok y => R x y
  | Raise e, Raise e' => e = e'
  | _, _ => False
  end.

(** Two states of the loop of [time_changes] that differ at most in the
    changes of one id-code. *)
Definition same_but (id_code : string)
    (st st0 : option Z * Dict Z (list Change.t)) : Prop :=
  fst st = fst st0 /\ strip id_code (snd st) = strip id_code (snd st0).

(** A one-character [str]. *)
Definition is_char (v : PyVal) : Prop :=
  exists c : ascii, v = VStr (String c EmptyString).

(** A change is good for a group when every sibling it addresses gets a
    one-character value. *)
Definition good_change (vars : list VarDecl.t) (change : Change.t) : Prop :=
  forall var,
    In var vars ->
    Change.id_code change = VarDecl.id_code var ->
    is_char (Change.value change).

(** A declaration whose bit-index is an [int] within 0..n-1. *)
Definition in_range (n : nat) (var : VarDecl.t) : Prop :=
  exists i, VarDecl.bit_index var = Idx i /\ 0 <= i < Z.of_nat n.

(** A buffer of [n] positions, one character each. *)
Definition char_buffer (n : nat) (value : list PyVal) : Prop :=
  List.length value = n /\ Forall is_char value.

(** Where the rendering of a window that ends at [end_] stops: at the first
    event of the list that is not before [end_], at [end_] without one. *)
Definition window_close (self : Channel.t) (end_ : Z) : Z :=
  match find (fun e => end_ <=? ChannelEvent.time e) (Channel.events self) with
  | Some e => ChannelEvent.time e
  | None => end_
  end.

(** The symbols of a list of segments, one per time unit. *)
Definition expand (segs : list (Z * string)) : list string :=
  flat_map (fun seg => repeat (snd seg) (Z.to_nat (fst seg))) segs.

(** The channels that [to_tikz] renders. *)
Definition is_selected (channel_names : option (list string)) (name : string)
  : Prop :=
  match channel_names with
  | Some names => In name names
  | None => True
  end.

Definition selected (self : Simulation.t) (channel_names : option (list string))
  : list Channel.t :=
  match channel_names with
  | Some names => filter (Simulation.name_in names) (Simulation.channels self)
  | None => Simulation.channels self
  end.

(** The tokens before the next scope declaration. *)
Fixpoint until_scope (tokens : list Token) : list Token :=
  match tokens with
  | [] => []
  | TokScope _ :: _ => []
  | token :: rest => token :: until_scope rest
  end.

(** The tokens that [scope_vars], resp. [time_changes], acts on. *)
Definition is_declaration (token : Token) : bool :=
  TokenKind_eqb (kind token) SCOPE || TokenKind_eqb (kind token) VAR.

Definition is_timeline (token : Token) : bool :=
  TokenKind_eqb (kind token) CHANGE_TIME
  || VcdSimulation.is_recorded_kind (kind token).

(** The declarations filed under one scope of the Declaration Index. *)
Definition scope_declarations
    (scope_vars : Dict string (Dict string (Dict BitIndex VarDecl.t)))
    (scope : string) : list VarDecl.t :=
  match dict_get String.eqb scope scope_vars with
  | Some channels => flat_map (fun channel => dict_values (snd channel)) channels
  | None => []
  end.

(** A group of sibling declarations as the Declaration Index keeps it under
    a reference name: not empty, one declaration per bit-index, each filed
    under its own reference name and bit-index. *)
Definition group_ok (name : string) (vars : Dict BitIndex VarDecl.t) : Prop :=
  vars <> []
  /\ NoDup (dict_keys vars)
  /\ forall bit var,
       In (bit, var) vars ->
       VarDecl.reference var = name /\ VarDecl.bit_index var = bit.

Definition scope_ok (channels : Dict string (Dict BitIndex VarDecl.t)) : Prop :=
  NoDup (dict_keys channels)
  /\ forall name vars, In (name, vars) channels -> group_ok name vars.

(** The channels of a scope after the declaration [d] is filed, as the VAR
    branch of [scope_vars] does it. *)
Definition with_var (d : VarDecl.t)
    (channels : Dict string (Dict BitIndex VarDecl.t))
  : Exc (Dict string (Dict BitIndex VarDecl.t)) :=
  let var := VarDecl.reference d in
  let channels :=
    if negb (dict_mem String.eqb var channels)
    then dict_set String.eqb var [] channels else channels in
  vars <- dict_getitem String.eqb var channels ;;
  Ok (dict_set String.eqb var
        (dict_set BitIndex_eqb (VarDecl.bit_index d) d vars) channels).

(** The shape of a bit-index. *)
Definition has_int_index (var : VarDecl.t) : Prop :=
  exists i, VarDecl.bit_index var = Idx i.

Definition has_range_index (var : VarDecl.t) : Prop :=
  exists msb lsb, VarDecl.bit_index var = Range msb lsb.

(** The groups that [sorted] accepts: at most one declaration, or
    bit-indices that are all [int]s, or all pairs. *)
Definition sortable (vars : list VarDecl.t) : Prop :=
  (List.length vars <= 1)%nat
  \/ Forall has_int_index vars
  \/ Forall has_range_index vars.

(** Some change of the Timed Change Set carries the id-code of one of the
    declarations. *)
Definition addressed (vars : list VarDecl.t) (items : Dict Z (list Change.t))
  : Prop :=
  exists t changes change var,
    In (t, changes) items /\ In change changes /\ In var vars
    /\ Change.id_code change = VarDecl.id_code var.

(** Scope, reference name and number of sibling declarations of every
    group of the Declaration Index, in its order. *)
Definition group_heads
    (scope_vars : Dict string (Dict string (Dict BitIndex VarDecl.t)))
  : list (string * string * Z) :=
  flat_map
    (fun scope =>
       map (fun channel =>
              (fst scope, fst channel, Z.of_nat (List.length (snd channel))))
         (snd scope))
    scope_vars.

(** The exception that the assignment [value[index] = ...] raises for a
    declaration, on a buffer of [n] positions. *)
Definition rejects (n : nat) (e : PyError) (var : VarDecl.t) : Prop :=
  match VarDecl.bit_index var with
  | NoIndex => False
  | Idx i => e = IndexError /\ ~ (- Z.of_nat n <= i < Z.of_nat n)
  | Range _ _ => e = TypeError
  end.

(** The value of the last change of a list that carries [id_code]. *)
Definition last_value (id_code : string) (changes : list Change.t)
  : option PyVal :=
  fold_left
    (fun found change =>
       if String.eqb (Change.id_code change) id_code
       then Some (Change.value change) else found)
    changes None.

(** Buffer and [has_changed] of a group of one declaration while the
    changes of a timestamp are applied: [before] is what the buffer held,
    [found] the last value written so far. *)
Definition scalar_state (before : PyVal) (found : option PyVal)
  : list PyVal * bool :=
  ([match found with Some v => v | None => before end],
   match found with Some _ => true | None => false end).

(** The events of a scalar signal, timestamp by timestamp: none when the
    signal is not written, one with the last value written when that is a
    [str], an exception otherwise. *)
Definition scalar_event (id_code : string) (item : Z * list Change.t)
  : Exc (list ChannelEvent.t) :=
  match last_value id_code (snd item) with
  | None => Ok []
  | Some (VStr text) => Ok [ChannelEvent.mk (fst item) text]
  | Some _ => Raise TypeError
  end.

Definition scalar_events (id_code : string) (items : Dict Z (list Change.t))
  : Exc (list ChannelEvent.t) :=
  for_each (fun acc item => evs <- scalar_event id_code item ;; Ok (acc ++ evs))
    [] items.

(** ** Sample inputs *)

(** The two channels built in the [__main__] block of the program; their
    values, 0 and 1 there, are written as the text that the line prints. *)
Definition clk : Channel.t :=
  Channel.mk 1 "teste" "clock"
    [ChannelEvent.mk 0 "0"; ChannelEvent.mk 10 "1"; ChannelEvent.mk 20 "0";
     ChannelEvent.mk 30 "1"; ChannelEvent.mk 40 "0"; ChannelEvent.mk 50 "1"].

Definition enable : Channel.t :=
  Channel.mk 1 "teste" "enable"
    [ChannelEvent.mk 0 "0"; ChannelEvent.mk 30 "1"].

(** Scenario E: a two-bit channel declared bit 1 first, then bit 0; only
    bit 0 changes, at time 5, to ['1']. *)
Definition bit1 : VarDecl.t := VarDecl.mk 1 "!" "data" (Idx 1).
Definition bit0 : VarDecl.t := VarDecl.mk 1 "#" "data" (Idx 0).

Definition scenario_e : list Token :=
  [TokScope (ScopeDecl.mk "top"); TokVar bit1; TokVar bit0;
   TokOther KEndDefinitions "";
   TokChangeTime 5; TokChangeScalar (Change.mk "#" (VStr "1"))].

(** A dump in which the value of a signal is written again, unchanged,
    at a later timestamp. *)
Definition redump : list Token :=
  [TokScope (ScopeDecl.mk "top");
   TokVar (VarDecl.mk 1 "!" "clk" NoIndex);
   TokOther KEndDefinitions "";
   TokChangeTime 0; TokChangeScalar (Change.mk "!" (VStr "1"));
   TokChangeTime 5; TokChangeScalar (Change.mk "!" (VStr "1"))].

(** A dump of a memory of two words of two bits, [mem[1]] and [mem[0]]; the
    word [mem[1]] is written with a vector change that holds an unknown
    bit, so that its value is a [str]. *)
Definition mem_dump : list Token :=
  [TokScope (ScopeDecl.mk "top");
   TokVar (VarDecl.mk 2 "!" "mem" (Idx 1));
   TokVar (VarDecl.mk 2 "#" "mem" (Idx 0));
   TokOther KEndDefinitions "";
   TokChangeTime 0; TokChangeVector (Change.mk "!" (VStr "x1"))].


(** A dump with a change of an id-code that was never declared. *)
Definition stray_change : list Token :=
  [TokScope (ScopeDecl.mk "top");
   TokVar (VarDecl.mk 1 "!" "clk" NoIndex);
   TokOther KEndDefinitions "";
   TokChangeTime 0; TokChangeScalar (Change.mk "?" (VStr "1"))].

(** * Properties *)

(** ** Rendering: [value_at], [next_event], [to_tikz_line] *)

Section ChannelFacts.
Import Channel.

Lemma scan_succ (rest : list ChannelEvent.t) (time : Z) (i : nat) :
  scan rest time (S i) = S (scan rest time i).
Proof.
  revert i; induction rest as [|e rest IH]; intros i; simpl.
  - reflexivity.
  - destruct (ChannelEvent.time e <=? time); [apply IH | reflexivity].
Qed.

Lemma scan_bound (rest : list ChannelEvent.t) (time : Z) (i : nat) :
  (i <= scan rest time i <= i + List.length rest)%nat.
Proof.
  revert i; induction rest as [|e rest IH]; intros i; simpl.
  - lia.
  - destruct (ChannelEvent.time e <=? time).
    + specialize (IH (S i)). lia.
    + lia.
Qed.

Lemma scan_zero (rest : list ChannelEvent.t) (time : Z) :
  scan rest time 0 = 0%nat <->
  match rest with
  | [] => True
  | e :: _ => time < ChannelEvent.time e
  end.
Proof.
  destruct rest as [|e rest]; simpl.
  - tauto.
  - destruct (Z.leb_spec (ChannelEvent.time e) time) as [Hle|Hlt].
    + rewrite scan_succ. split; [discriminate | lia].
    + tauto.
Qed.

(** [value_at] unfolded along the event list. *)
Lemma value_at_cons (sz : Z) (m n : string) (e : ChannelEvent.t)
    (rest : list ChannelEvent.t) (time : Z) :
  value_at (mk sz m n (e :: rest)) time =
  if ChannelEvent.time e <=? time then
    if Nat.eqb (scan rest time 0) 0 then ChannelEvent.value e
    else value_at (mk sz m n rest) time
  else "X".
Proof.
  unfold value_at; simpl.
  destruct (ChannelEvent.time e <=? time); [|reflexivity].
  rewrite scan_succ. simpl.
  destruct (scan rest time 0) as [|k]; simpl; [reflexivity|].
  rewrite Nat.sub_0_r. reflexivity.
Qed.


(** [next_event] returns an event of the list that lies strictly after
    [time], whatever the order of the list. *)
Lemma next_event_some (self : t) (time : Z) (ev : ChannelEvent.t) :
  next_event self time = Some ev ->
  In ev (events self) /\ time < ChannelEvent.time ev.
Proof.
  unfold next_event. destruct self as [sz m n evs]; simpl.
  destruct (Nat.leb _ _); [discriminate|].
  assert (G : forall rest i k,
             nth_error rest k = Some ev ->
             scan rest time i = (i + k)%nat ->
             time < ChannelEvent.time ev).
  { induction rest as [|e rest IH]; intros i k Hnth Hscan.
    - destruct k; discriminate.
    - simpl in Hscan.
      destruct (Z.leb_spec (ChannelEvent.time e) time) as [Hle|Hlt].
      + destruct k as [|k].
        * pose proof (scan_bound rest time (S i)). lia.
        * simpl in Hnth. apply (IH (S i) k Hnth). lia.
      + assert (k = 0%nat) by lia. subst k. simpl in Hnth.
        now inversion Hnth; subst. }
  intros Hnth. split.
  - eapply nth_error_In; eassumption.
  - eapply (G evs 0%nat); [eassumption | reflexivity].
Qed.

Lemma later_le_length (evs : list ChannelEvent.t) (time : Z) :
  (later evs time <= List.length evs)%nat.
Proof. apply filter_length_le. Qed.

Lemma later_mono (evs : list ChannelEvent.t) (t1 t2 : Z) :
  t1 <= t2 -> (later evs t2 <= later evs t1)%nat.
Proof.
  intros Hle. unfold later.
  induction evs as [|x l IHl]; simpl; [lia|].
  destruct (Z.ltb_spec t2 (ChannelEvent.time x));
    destruct (Z.ltb_spec t1 (ChannelEvent.time x)); simpl; lia.
Qed.

Lemma later_decreases (evs : list ChannelEvent.t) (time : Z)
    (ev : ChannelEvent.t) :
  In ev evs -> time < ChannelEvent.time ev ->
  (later evs (ChannelEvent.time ev) < later evs time)%nat.
Proof.
  intros Hin Hlt. induction evs as [|e evs IH]; [destruct Hin|].
  assert (Hle : time <= ChannelEvent.time ev) by lia.
  pose proof (later_mono evs _ _ Hle) as Hmono.
  unfold later in *. simpl. destruct Hin as [->|Hin].
  - rewrite Z.ltb_irrefl.
    destruct (Z.ltb_spec time (ChannelEvent.time ev)); [|lia].
    simpl. lia.
  - specialize (IH Hin).
    destruct (Z.ltb_spec (ChannelEvent.time ev) (ChannelEvent.time e));
      destruct (Z.ltb_spec time (ChannelEvent.time e)); simpl; lia.
Qed.

Lemma segments_loop_total (self : t) (end_ : Z) (fuel : nat) :
  forall acc v time,
    (later (events self) time < fuel)%nat ->
    exists segs, segments_loop fuel self end_ acc v time = Some segs.
Proof.
  induction fuel as [|fuel IH]; intros acc v time Hfuel; [lia|].
  simpl. destruct (time <? end_); [|eauto].
  destruct (next_event self time) as [ev|] eqn:Hnext; [|eauto].
  apply next_event_some in Hnext. destruct Hnext as [Hin Hlt].
  apply IH. pose proof (later_decreases _ _ _ Hin Hlt). lia.
Qed.

(** The text loop is the segment loop followed by the formatting. *)
Lemma tikz_loop_segments (self : t) (end_ : Z) (head : string) (fuel : nat) :
  forall acc v time,
    tikz_loop fuel self end_
      (head :: map (fun s => segment_str (fst s) (snd s)) acc) v time =
    option_map
      (fun segs => head :: map (fun s => segment_str (fst s) (snd s)) segs)
      (segments_loop fuel self end_ acc v time).
Proof.
  induction fuel as [|fuel IH]; intros acc v time; simpl; [reflexivity|].
  destruct (time <? end_); [|reflexivity].
  destruct (next_event self time) as [ev|].
  - rewrite <- IH. f_equal. simpl. rewrite map_app. reflexivity.
  - simpl. rewrite map_app. reflexivity.
Qed.

Lemma to_tikz_line_segments (self : t) (start end_ : Z) :
  to_tikz_line self start end_ =
  option_map
    (fun segs =>
       str_join " "
         ((name self ++ " &")%string
            :: map (fun s => segment_str (fst s) (snd s)) segs))
    (segments self start end_).
Proof.
  unfold to_tikz_line, segments.
  rewrite (tikz_loop_segments self end_ _ _ []).
  destruct (segments_loop _ _ _ _ _ _); reflexivity.
Qed.

(** [to_tikz_line] always returns: the fuel of the model never runs out. *)
Lemma segments_total (self : t) (start end_ : Z) :
  exists segs, segments self start end_ = Some segs.
Proof.
  apply segments_loop_total.
  pose proof (later_le_length (events self) start). lia.
Qed.

Lemma to_tikz_line_total (self : t) (start end_ : Z) :
  exists line, to_tikz_line self start end_ = Some line.
Proof.
  rewrite to_tikz_line_segments.
  destruct (segments_total self start end_) as [segs ->]. simpl. eauto.
Qed.

End ChannelFacts.




(** The scan of [value_at] stops at the first event after [t]: on a list
    that is not in timestamp order it does not see a later entry with an
    earlier timestamp. *)
Example value_at_out_of_order :
  Channel.value_at
    (Channel.mk 1 "teste" "enable"
       [ChannelEvent.mk 30 "1"; ChannelEvent.mk 0 "0"]) 12 = "X".
Proof. reflexivity. Qed.

Lemma string_append_assoc (a b c : string) :
  ((a ++ b) ++ c = a ++ (b ++ c))%string.
Proof. induction a as [|x a IH]; simpl; [reflexivity | now rewrite IH]. Qed.

(** C9. A Channel without events renders, over any window [s, e) with
    s < e, as the single segment of duration e - s and symbol ['X']: the
    line reads NAME & (e-s){X}. *)
Theorem empty_channel_single_unknown_segment (self : Channel.t) (s e : Z) :
  Channel.events self = [] ->
  s < e ->
  Channel.segments self s e = Some [(e - s, "X")]
  /\ Channel.to_tikz_line self s e =
     Some (Channel.name self ++ " & " ++ str_int (e - s) ++ "{X}")%string.
Proof.
  intros Hempty Hlt.
  assert (Hseg : Channel.segments self s e = Some [(e - s, "X")]).
  { unfold Channel.segments, Channel.value_at, Channel.next_event.
    rewrite Hempty. simpl. unfold Channel.next_event. rewrite Hempty. simpl.
    apply Z.ltb_lt in Hlt. rewrite Hlt. reflexivity. }
  split; [exact Hseg|].
  rewrite to_tikz_line_segments, Hseg. simpl.
  unfold Channel.segment_str. simpl.
  now rewrite string_append_assoc.
Qed.

Lemma empty_channel_single_unknown_segment_witness :
  3 < 20
  /\ Channel.segments (Channel.mk 1 "teste" "reset" []) 3 20 = Some [(17, "X")]
  /\ Channel.to_tikz_line (Channel.mk 1 "teste" "reset" []) 3 20
     = Some "reset & 17{X}".
Proof.
  split; [lia|].
  apply (empty_channel_single_unknown_segment
           (Channel.mk 1 "teste" "reset" []) 3 20); [reflexivity | lia].
Defined.

(** C1, evaluated.  Rendering the 'enable' channel, events (0,'0') and
    (30,'1'), over the window [5,15) gives the single segment 25{0}: the
    segment runs to the next event at 30 instead of stopping at the end of
    the window, so the durations sum to 25 and not to 15 - 5. *)
Theorem enable_window_5_15_overshoots :
  Channel.to_tikz_line enable 5 15 = Some "enable & 25{0}"
  /\ Channel.segments enable 5 15 = Some [(25, "0")]
  /\ option_map total_duration (Channel.segments enable 5 15) = Some 25
  /\ option_map total_duration (Channel.segments enable 5 15) <> Some (15 - 5).
Proof.
  repeat split; try reflexivity. simpl. discriminate.
Qed.

(** When no event lies after the end of the window the durations do sum to
    the length of the window. *)
Lemma segments_loop_sum (self : Channel.t) (end_ : Z) (fuel : nat) :
  (forall e, In e (Channel.events self) -> ChannelEvent.time e <= end_) ->
  forall acc v time segs,
    time <= end_ ->
    Channel.segments_loop fuel self end_ acc v time = Some segs ->
    total_duration segs = total_duration acc + (end_ - time).
Proof.
  intros Hbound.
  assert (Hsnoc : forall acc d (x : string),
             total_duration (acc ++ [(d, x)]) = total_duration acc + d).
  { intros acc d x. unfold total_duration.
    induction acc as [|a acc IH]; simpl in *; lia. }
  induction fuel as [|fuel IH]; intros acc v time segs Hle Hrun;
    [discriminate|].
  simpl in Hrun. destruct (Z.ltb_spec time end_) as [Hlt|Hge].
  - destruct (Channel.next_event self time) as [ev|] eqn:Hnext.
    + apply next_event_some in Hnext. destruct Hnext as [Hin Hafter].
      apply IH in Hrun; [|now apply Hbound].
      rewrite Hrun, Hsnoc. lia.
    + inversion Hrun; subst. rewrite Hsnoc. lia.
  - inversion Hrun; subst. lia.
Qed.

Lemma segments_cover_window (self : Channel.t) (start end_ : Z) :
  (forall e, In e (Channel.events self) -> ChannelEvent.time e <= end_) ->
  start <= end_ ->
  option_map total_duration (Channel.segments self start end_)
  = Some (end_ - start).
Proof.
  intros Hbound Hle.
  destruct (segments_total self start end_) as [segs Hsegs].
  rewrite Hsegs. simpl. f_equal.
  apply (segments_loop_sum self end_ _ Hbound) in Hsegs; [|assumption].
  rewrite Hsegs. reflexivity.
Qed.

(** ** The timeline builder: [time_changes] *)

Section DictFacts.
Context {K V : Type}.
Variable eqb : K -> K -> bool.
Hypothesis eqb_eq : forall a b, eqb a b = true <-> a = b.

Lemma eqb_refl_true (k : K) : eqb k k = true.
Proof. now apply eqb_eq. Qed.

Lemma eqb_neq_false (a b : K) : a <> b -> eqb a b = false.
Proof.
  intros Hne. destruct (eqb a b) eqn:E; [|reflexivity].
  apply eqb_eq in E. contradiction.
Qed.

Lemma dict_get_set_same (k : K) (v : V) (d : list (K * V)) :
  dict_get eqb k (dict_set eqb k v d) = Some v.
Proof.
  induction d as [|[k' v'] d IH]; simpl.
  - now rewrite eqb_refl_true.
  - destruct (eqb k k') eqn:E; simpl; rewrite E; [reflexivity | exact IH].
Qed.

Lemma dict_get_set_other (k k' : K) (v : V) (d : list (K * V)) :
  k <> k' ->
  dict_get eqb k (dict_set eqb k' v d) = dict_get eqb k d.
Proof.
  intros Hne. induction d as [|[k0 v0] d IH]; simpl.
  - now rewrite (eqb_neq_false _ _ Hne).
  - destruct (eqb k' k0) eqn:E; simpl.
    + apply eqb_eq in E. subst k0. now rewrite (eqb_neq_false _ _ Hne).
    + now rewrite IH.
Qed.

Lemma dict_get_In (k : K) (v : V) (d : list (K * V)) :
  dict_get eqb k d = Some v -> In (k, v) d.
Proof.
  induction d as [|[k' v'] d IH]; simpl; [discriminate|].
  destruct (eqb k k') eqn:E.
  - apply eqb_eq in E. intros H; inversion H; subst. now left.
  - intros H. right. now apply IH.
Qed.

Lemma dict_get_None (k : K) (d : list (K * V)) :
  dict_get eqb k d = None <-> ~ In k (map fst d).
Proof.
  induction d as [|[k' v'] d IH]; simpl; [tauto|].
  destruct (eqb k k') eqn:E.
  - apply eqb_eq in E. subst. split; [discriminate | intros H; exfalso; auto].
  - rewrite IH. split.
    + intros Hn [->|Hin]; [|auto]. now rewrite eqb_refl_true in E.
    + tauto.
Qed.

Lemma NoDup_In_dict_get (k : K) (v : V) (d : list (K * V)) :
  NoDup (map fst d) -> In (k, v) d -> dict_get eqb k d = Some v.
Proof.
  induction d as [|[k' v'] d IH]; simpl; [tauto|].
  intros Hnd Hin. inversion Hnd as [|? ? Hnotin Hnd']; subst.
  destruct Hin as [Heq|Hin].
  - inversion Heq; subst. now rewrite eqb_refl_true.
  - destruct (eqb k k') eqn:E.
    + apply eqb_eq in E. subst. exfalso. apply Hnotin.
      change k' with (fst (k', v)). now apply in_map.
    + now apply IH.
Qed.

(** Assigning to a key that is present keeps the keys; a new key goes to
    the end. *)
Lemma dict_set_keys (k : K) (v : V) (d : list (K * V)) :
  map fst (dict_set eqb k v d) =
  if dict_mem eqb k d then map fst d else map fst d ++ [k].
Proof.
  unfold dict_mem. induction d as [|[k' v'] d IH]; simpl; [reflexivity|].
  destruct (eqb k k') eqn:E; simpl; [reflexivity|].
  rewrite IH. now destruct (dict_get eqb k d).
Qed.

End DictFacts.

Lemma for_each_app {A S : Type} (body : S -> A -> Exc S) (xs ys : list A) :
  forall s,
    for_each body s (xs ++ ys) =
    (s' <- for_each body s xs ;; for_each body s' ys).
Proof.
  induction xs as [|x xs IH]; intros s; simpl; [reflexivity|].
  destruct (body s x); simpl; [apply IH | reflexivity].
Qed.

Lemma for_each_cons {A S : Type} (body : S -> A -> Exc S) (s : S) (x : A)
    (xs : list A) :
  for_each body s (x :: xs) = (s' <- body s x ;; for_each body s' xs).
Proof. reflexivity. Qed.

Section TimeChangesFacts.
Import VcdSimulation.

(** Of the four value-change kinds only two pass the test of the [elif]. *)
Lemma is_recorded_kind_iff (k : TokenKind) :
  is_recorded_kind k = true <-> k = CHANGE_SCALAR \/ k = CHANGE_VECTOR.
Proof.
  destruct k; simpl; split; intros H;
    try discriminate; try tauto; destruct H; discriminate.
Qed.

Lemma step_marker (st : option Z * TimeChanges) (t : Z) :
  time_changes_step st (TokChangeTime t) =
  Ok (Some t, dict_set Z.eqb t [] (snd st)).
Proof. now destruct st. Qed.

(** How the step acts on a token that is not a marker. *)
Lemma step_not_marker (time : option Z) (acc : TimeChanges) (token : Token) :
  (forall t, token <> TokChangeTime t) ->
  time_changes_step (time, acc) token =
  match recorded [token] with
  | [] => Ok (time, acc)
  | change :: _ =>
      match time with
      | None => Raise UnboundLocalError
      | Some t =>
          changes <- dict_getitem Z.eqb t acc ;;
          Ok (Some t, dict_set Z.eqb t (changes ++ [change]) acc)
      end
  end.
Proof.
  intros Hnm. destruct token as [d|d|t|c|c|c|c|k s]; try reflexivity.
  - now contradiction (Hnm t).
  - now destruct k.
Qed.

Lemma recorded_cons (token : Token) (rest : list Token) :
  recorded (token :: rest) = recorded [token] ++ recorded rest.
Proof. unfold recorded. simpl. now rewrite app_nil_r. Qed.

Lemma recorded_single (token : Token) :
  recorded [token] = [] \/ exists change, recorded [token] = [change].
Proof.
  unfold recorded; simpl. rewrite app_nil_r.
  destruct (is_recorded_kind (kind token)); [|now left].
  destruct (change_data token); [right; eauto | now left].
Qed.

Lemma marker_dec (token : Token) :
  (exists t, token = TokChangeTime t) \/ (forall t, token <> TokChangeTime t).
Proof. destruct token; try (right; intros; discriminate). left; eauto. Qed.

(** Once a marker has been seen the loop cannot raise. *)
Lemma run_from_marker_total (tokens : list Token) :
  forall t acc,
    dict_get Z.eqb t acc <> None ->
    exists t' acc',
      for_each time_changes_step (Some t, acc) tokens = Ok (Some t', acc')
      /\ dict_get Z.eqb t' acc' <> None.
Proof.
  induction tokens as [|token rest IH]; intros t acc Hin;
    [simpl; eauto | rewrite for_each_cons].
  destruct (marker_dec token) as [[t1 ->]|Hnm].
  - rewrite step_marker. simpl. apply IH.
    rewrite (dict_get_set_same Z.eqb Z.eqb_eq). discriminate.
  - rewrite (step_not_marker _ _ _ Hnm).
    destruct (recorded_single token) as [->|[change ->]]; simpl.
    + now apply IH.
    + unfold dict_getitem.
      destruct (dict_get Z.eqb t acc) as [changes|] eqn:Hget;
        [|contradiction]. simpl. apply IH.
      rewrite (dict_get_set_same Z.eqb Z.eqb_eq). discriminate.
Qed.

(** [time_changes] returns exactly when no change is recorded before the
    first marker. *)
Lemma run_total (tokens : list Token) (acc : TimeChanges) :
  recorded (until_marker tokens) = [] ->
  exists st, for_each time_changes_step (None, acc) tokens = Ok st.
Proof.
  induction tokens as [|token rest IH]; intros Hrec;
    [simpl; eauto | rewrite for_each_cons].
  destruct (marker_dec token) as [[t1 ->]|Hnm].
  - rewrite step_marker. simpl.
    destruct (run_from_marker_total rest t1 (dict_set Z.eqb t1 [] acc))
      as (t' & acc' & -> & _); [|eauto].
    rewrite (dict_get_set_same Z.eqb Z.eqb_eq). discriminate.
  - rewrite (step_not_marker _ _ _ Hnm).
    assert (Hum : until_marker (token :: rest) = token :: until_marker rest).
    { destruct token; try reflexivity. now contradiction (Hnm t). }
    rewrite Hum, recorded_cons in Hrec.
    apply app_eq_nil in Hrec. destruct Hrec as [-> Hrec]. simpl.
    now apply IH.
Qed.

Lemma time_changes_total (tokens : list Token) :
  recorded (until_marker tokens) = [] ->
  exists tc, time_changes tokens = Ok tc.
Proof.
  intros Hrec. unfold time_changes.
  destruct (run_total tokens [] Hrec) as [[time acc] ->]. simpl. eauto.
Qed.

(** The list of a timestamp [t] after the loop has run over tokens without
    a marker of [t]: it grows by the changes up to the next marker when [t]
    is the current time, and is left alone otherwise. *)
Lemma run_without_marker (t : Z) (tokens : list Token) :
  ~ In (TokChangeTime t) tokens ->
  forall time acc time' acc' l,
    dict_get Z.eqb t acc = Some l ->
    for_each time_changes_step (time, acc) tokens = Ok (time', acc') ->
    dict_get Z.eqb t acc' =
    Some (match time with
          | Some t0 =>
              if t0 =? t then l ++ recorded (until_marker tokens) else l
          | None => l
          end).
Proof.
  induction tokens as [|token rest IH];
    intros Hnot time acc time' acc' l Hget Hrun.
  - simpl in Hrun. injection Hrun as <- <-. rewrite Hget. simpl.
    rewrite app_nil_r. now destruct time as [t0|]; [destruct (t0 =? t)|].
  - rewrite for_each_cons in Hrun.
    assert (Hrest : ~ In (TokChangeTime t) rest)
      by (intros H; apply Hnot; now right).
    destruct (marker_dec token) as [[t1 ->]|Hnm].
    + rewrite step_marker in Hrun. simpl in Hrun.
      assert (Hne : t <> t1) by (intros ->; apply Hnot; now left).
      assert (Hget1 : dict_get Z.eqb t (dict_set Z.eqb t1 [] acc) = Some l)
        by (rewrite (dict_get_set_other Z.eqb Z.eqb_eq); assumption).
      rewrite (IH Hrest _ _ _ _ _ Hget1 Hrun). simpl. rewrite app_nil_r.
      destruct (Z.eqb_spec t1 t); [congruence|].
      now destruct time as [t0|]; [destruct (t0 =? t)|].
    + rewrite (step_not_marker _ _ _ Hnm) in Hrun.
      assert (Hum : until_marker (token :: rest) = token :: until_marker rest).
      { destruct token; try reflexivity. now contradiction (Hnm t0). }
      rewrite Hum, recorded_cons.
      destruct (recorded_single token) as [Hr|[change Hr]];
        rewrite Hr in *; simpl in Hrun |- *.
      * eapply IH; eassumption.
      * destruct time as [t0|]; [|discriminate].
        unfold dict_getitem in Hrun.
        destruct (dict_get Z.eqb t0 acc) as [changes|] eqn:Hget0;
          [|discriminate]. simpl in Hrun.
        destruct (Z.eqb_spec t0 t) as [->|Hne].
        -- rewrite Hget in Hget0. inversion Hget0; subst changes.
           rewrite (IH Hrest _ _ _ _ _
                      (dict_get_set_same Z.eqb Z.eqb_eq t (l ++ [change]) acc)
                      Hrun).
           rewrite Z.eqb_refl, <- app_assoc. reflexivity.
        -- assert (Hget1 : dict_get Z.eqb t
                              (dict_set Z.eqb t0 (changes ++ [change]) acc)
                            = Some l).
           { rewrite (dict_get_set_other Z.eqb Z.eqb_eq);
               [assumption | congruence]. }
           rewrite (IH Hrest _ _ _ _ _ Hget1 Hrun).
           destruct (Z.eqb_spec t0 t); [contradiction | reflexivity].
Qed.

Lemma until_marker_app_marker (a b : list Token) (t : Z) :
  until_marker (a ++ TokChangeTime t :: b) = until_marker a.
Proof.
  induction a as [|x a IH]; simpl; [reflexivity|].
  destruct x; simpl; try rewrite IH; reflexivity.
Qed.

(** The list of [t] holds the changes between the last marker of [t] and
    the marker that follows it. *)
Lemma time_changes_after_last_marker (pre post : list Token) (t : Z) :
  recorded (until_marker pre) = [] ->
  ~ In (TokChangeTime t) post ->
  exists tc,
    time_changes (pre ++ TokChangeTime t :: post) = Ok tc
    /\ dict_get Z.eqb t tc = Some (recorded (until_marker post)).
Proof.
  intros Hpre Hpost. unfold time_changes.
  rewrite for_each_app.
  destruct (run_total pre [] Hpre) as [[time acc] ->]. simpl.
  destruct (run_from_marker_total post t (dict_set Z.eqb t [] acc))
    as (t' & acc' & Hrun & _).
  { rewrite (dict_get_set_same Z.eqb Z.eqb_eq). discriminate. }
  rewrite Hrun. simpl. eexists; split; [reflexivity|].
  rewrite (run_without_marker t post Hpost _ _ _ _ []
             (dict_get_set_same Z.eqb Z.eqb_eq t [] acc) Hrun).
  now rewrite Z.eqb_refl.
Qed.

End TimeChangesFacts.

(** C3, evaluated.  After a timestamp marker a scalar change and a vector
    change are appended to the list of the timestamp, a real change and a
    string change are not: the test of the loop accepts none of these two
    kinds. *)
Theorem real_and_string_changes_not_recorded :
  VcdSimulation.time_changes
    [TokChangeTime 0;
     TokChangeScalar (Change.mk "!" (VStr "1"));
     TokChangeReal (Change.mk "$" (VFloat 1.5));
     TokChangeVector (Change.mk "#" (VStr "x1"));
     TokChangeString (Change.mk "%" (VStr "idle"))]
  = Ok [(0, [Change.mk "!" (VStr "1"); Change.mk "#" (VStr "x1")])]
  /\ VcdSimulation.is_recorded_kind CHANGE_REAL = false
  /\ VcdSimulation.is_recorded_kind CHANGE_STRING = false.
Proof. repeat split. Qed.

(** C10. When two markers carry the same timestamp [t] and no marker of [t]
    follows the second one, the Timed Change Set maps [t] to exactly the
    changes recorded after the second marker (up to the next marker): the
    changes recorded between the two markers are gone, whatever they
    were. *)
Theorem repeated_marker_resets_list
    (pre mid post : list Token) (t : Z) :
  recorded (until_marker pre) = [] ->
  ~ In (TokChangeTime t) post ->
  exists tc,
    VcdSimulation.time_changes
      (pre ++ TokChangeTime t :: mid ++ TokChangeTime t :: post) = Ok tc
    /\ dict_get Z.eqb t tc = Some (recorded (until_marker post)).
Proof.
  intros Hpre Hpost.
  replace (pre ++ TokChangeTime t :: mid ++ TokChangeTime t :: post)
    with ((pre ++ TokChangeTime t :: mid) ++ TokChangeTime t :: post)
    by (rewrite <- app_assoc; reflexivity).
  apply time_changes_after_last_marker; [|assumption].
  now rewrite until_marker_app_marker.
Qed.

Lemma repeated_marker_resets_list_witness :
  exists tc,
    VcdSimulation.time_changes
      ([TokOther KEndDefinitions ""]
         ++ TokChangeTime 7
         :: [TokChangeScalar (Change.mk "!" (VStr "0"))]
         ++ TokChangeTime 7
         :: [TokChangeScalar (Change.mk "!" (VStr "1")); TokChangeTime 9;
             TokChangeScalar (Change.mk "!" (VStr "z"))]) = Ok tc
    /\ dict_get Z.eqb 7 tc = Some [Change.mk "!" (VStr "1")].
Proof.
  apply (repeated_marker_resets_list
           [TokOther KEndDefinitions ""]
           [TokChangeScalar (Change.mk "!" (VStr "0"))]
           [TokChangeScalar (Change.mk "!" (VStr "1")); TokChangeTime 9;
            TokChangeScalar (Change.mk "!" (VStr "z"))] 7).
  - reflexivity.
  - simpl. intros [H|[H|[H|[]]]]; discriminate.
Defined.

(** ** The channel reconstructor: [to_events], [to_channel] *)

Section ToEventsFacts.
Import VcdSimulation.

Lemma insert_desc_perm (x : VarDecl.t) (l s : list VarDecl.t) :
  insert_desc x l = Ok s -> Permutation (x :: l) s.
Proof.
  revert s; induction l as [|y l IH]; intros s; simpl.
  - intros H; injection H as <-. apply Permutation_refl.
  - destruct (bit_index_lt _ _) as [[|]|]; simpl; try discriminate.
    + destruct (insert_desc x l) as [r|]; simpl; [|discriminate].
      intros H; injection H as <-.
      eapply perm_trans; [apply perm_swap|]. apply perm_skip. now apply IH.
    + intros H; injection H as <-. apply Permutation_refl.
Qed.

(** The sort only reorders the declarations. *)
Lemma sorted_desc_perm (l s : list VarDecl.t) :
  sorted_desc l = Ok s -> Permutation l s.
Proof.
  revert s; induction l as [|x l IH]; intros s; simpl.
  - intros H; injection H as <-. constructor.
  - destruct (sorted_desc l) as [r|]; simpl; [|discriminate].
    intros H. apply insert_desc_perm in H.
    eapply perm_trans; [apply perm_skip, IH; reflexivity | exact H].
Qed.

Lemma touches_iff (vars : list VarDecl.t) (changes : list Change.t) :
  touches vars changes = true <->
  exists change var,
    In change changes /\ In var vars
    /\ Change.id_code change = VarDecl.id_code var.
Proof.
  unfold touches. rewrite existsb_exists. split.
  - intros (c & Hc & H). apply existsb_exists in H.
    destruct H as (d & Hd & H). apply String.eqb_eq in H. eauto.
  - intros (c & d & Hc & Hd & H). exists c. split; [assumption|].
    apply existsb_exists. exists d. split; [assumption|].
    now apply String.eqb_eq.
Qed.

Lemma touches_perm (vars vars' : list VarDecl.t) (changes : list Change.t) :
  Permutation vars vars' -> touches vars changes = touches vars' changes.
Proof.
  intros Hp. apply eq_true_iff_eq. rewrite !touches_iff.
  split; intros (c & d & Hc & Hd & H); exists c, d; repeat split;
    try assumption.
  - eapply Permutation_in; eassumption.
  - eapply Permutation_in; [apply Permutation_sym|]; eassumption.
Qed.

(** [has_changed] after the loop over the declarations, for one change. *)
Lemma var_loop_flag (change : Change.t) (vars : list VarDecl.t) :
  forall value flag value' flag',
    for_each (var_step change) (value, flag) vars = Ok (value', flag') ->
    flag' = flag || touches vars [change].
Proof.
  unfold touches; simpl.
  induction vars as [|var vars IH]; intros value flag value' flag' Hrun.
  - simpl in Hrun. injection Hrun as <- <-. now rewrite orb_false_r.
  - rewrite for_each_cons in Hrun. unfold var_step at 1 in Hrun. simpl.
    destruct (String.eqb _ _).
    + destruct (VarDecl.bit_index var) as [|i|? ?]; simpl in Hrun;
        try discriminate;
        destruct (list_setitem value _ _) as [v1|]; simpl in Hrun;
        try discriminate; apply IH in Hrun; rewrite Hrun; simpl;
        now rewrite !orb_true_r.
    + simpl in Hrun. apply IH in Hrun. exact Hrun.
Qed.

(** [has_changed] after the loop over the changes of one timestamp. *)
Lemma change_loop_flag (vars : list VarDecl.t) (changes : list Change.t) :
  forall value flag value' flag',
    for_each (change_step vars) (value, flag) changes = Ok (value', flag') ->
    flag' = flag || touches vars changes.
Proof.
  induction changes as [|change changes IH];
    intros value flag value' flag' Hrun.
  - simpl in Hrun. injection Hrun as <- <-. now rewrite orb_false_r.
  - rewrite for_each_cons in Hrun. unfold change_step at 1 in Hrun.
    destruct (for_each (var_step change) (value, flag) vars)
      as [[v1 f1]|] eqn:Hvar; simpl in Hrun; [|discriminate].
    apply var_loop_flag in Hvar. apply IH in Hrun. subst.
    unfold touches in *. simpl in *. rewrite orb_false_r.
    now rewrite orb_assoc.
Qed.

(** The timestamps of the events: those of the Timed Change Set, in its
    order, at which some sibling is addressed. *)
Lemma time_loop_times (vars : list VarDecl.t) (items : Dict Z (list Change.t)) :
  forall value acc value' acc',
    for_each (time_step vars) (value, acc) items = Ok (value', acc') ->
    map ChannelEvent.time acc' =
    map ChannelEvent.time acc
      ++ map fst (filter (fun item => touches vars (snd item)) items).
Proof.
  induction items as [|[time changes] items IH];
    intros value acc value' acc' Hrun.
  - simpl in Hrun. injection Hrun as <- <-. simpl. now rewrite app_nil_r.
  - rewrite for_each_cons in Hrun. unfold time_step at 1 in Hrun.
    destruct (for_each (change_step vars) (value, false) changes)
      as [[v1 flag]|] eqn:Hch; simpl in Hrun; [|discriminate].
    apply change_loop_flag in Hch. simpl in Hch. subst flag. simpl.
    destruct (touches vars changes).
    + destruct (join_empty v1) as [text|]; simpl in Hrun; [|discriminate].
      apply IH in Hrun. rewrite Hrun, map_app. simpl.
      now rewrite <- app_assoc.
    + apply IH in Hrun. exact Hrun.
Qed.

Lemma to_events_times (tokens : list Token) (vars : Dict BitIndex VarDecl.t)
    (evs : list ChannelEvent.t) :
  to_events tokens vars = Ok evs ->
  exists tc,
    time_changes tokens = Ok tc
    /\ map ChannelEvent.time evs =
       map fst (filter (fun item => touches (dict_values vars) (snd item)) tc).
Proof.
  unfold to_events. intros Hrun.
  destruct (sorted_desc (dict_values vars)) as [vars'|] eqn:Hsort;
    simpl in Hrun; [|discriminate].
  destruct (time_changes tokens) as [tc|]; simpl in Hrun; [|discriminate].
  destruct (for_each (time_step vars') _ tc) as [[value acc]|] eqn:Hloop;
    simpl in Hrun; [|discriminate].
  injection Hrun as <-. exists tc. split; [reflexivity|].
  apply time_loop_times in Hloop. simpl in Hloop. rewrite Hloop.
  f_equal. apply filter_ext. intros item.
  symmetry. apply touches_perm. now apply sorted_desc_perm.
Qed.

(** The keys of the Timed Change Set are pairwise different. *)
Lemma dict_set_NoDup (t : Z) (l : list Change.t) (acc : Dict Z (list Change.t)) :
  NoDup (map fst acc) -> NoDup (map fst (dict_set Z.eqb t l acc)).
Proof.
  intros Hnd. rewrite (dict_set_keys Z.eqb). unfold dict_mem.
  destruct (dict_get Z.eqb t acc) eqn:Hget; [assumption|].
  apply (dict_get_None Z.eqb Z.eqb_eq) in Hget.
  apply NoDup_rev in Hnd. rewrite <- (rev_involutive (map fst acc ++ [t])).
  apply NoDup_rev. rewrite rev_app_distr. simpl. constructor; [|assumption].
  now rewrite <- in_rev.
Qed.

Lemma run_NoDup (tokens : list Token) :
  forall time acc time' acc',
    NoDup (map fst acc) ->
    for_each time_changes_step (time, acc) tokens = Ok (time', acc') ->
    NoDup (map fst acc').
Proof.
  induction tokens as [|token rest IH]; intros time acc time' acc' Hnd Hrun.
  - simpl in Hrun. now injection Hrun as <- <-.
  - rewrite for_each_cons in Hrun.
    destruct (marker_dec token) as [[t1 ->]|Hnm].
    + rewrite step_marker in Hrun. simpl in Hrun.
      eapply IH; [|eassumption]. now apply dict_set_NoDup.
    + rewrite (step_not_marker _ _ _ Hnm) in Hrun.
      destruct (recorded [token]) as [|change ?]; simpl in Hrun.
      * eapply IH; eassumption.
      * destruct time as [t|]; [|discriminate].
        destruct (dict_getitem Z.eqb t acc) as [changes|]; simpl in Hrun;
          [|discriminate].
        eapply IH; [|eassumption]. now apply dict_set_NoDup.
Qed.

Lemma time_changes_NoDup (tokens : list Token) (tc : Dict Z (list Change.t)) :
  time_changes tokens = Ok tc -> NoDup (map fst tc).
Proof.
  unfold time_changes.
  destruct (for_each time_changes_step _ tokens) as [[time acc]|] eqn:Hrun;
    simpl; [|discriminate].
  intros H; injection H as <-.
  eapply run_NoDup; [|eassumption]. constructor.
Qed.

End ToEventsFacts.

(** C6. For a Channel's sibling declarations [vars] and every timestamp [t]
    of the Timed Change Set, the event sequence of the Channel contains an
    event at [t] if and only if some change in the list of [t] carries the
    id-code of one of the siblings. *)
Theorem event_iff_sibling_changed
    (tokens : list Token) (vars : Dict BitIndex VarDecl.t)
    (tc : Dict Z (list Change.t)) (evs : list ChannelEvent.t)
    (t : Z) (changes : list Change.t) :
  VcdSimulation.time_changes tokens = Ok tc ->
  VcdSimulation.to_events tokens vars = Ok evs ->
  dict_get Z.eqb t tc = Some changes ->
  (exists e, In e evs /\ ChannelEvent.time e = t)
  <->
  (exists change var,
      In change changes /\ In var (dict_values vars)
      /\ Change.id_code change = VarDecl.id_code var).
Proof.
  intros Htc Hev Hget.
  destruct (to_events_times _ _ _ Hev) as (tc' & Htc' & Htimes).
  rewrite Htc in Htc'. injection Htc' as <-.
  pose proof (time_changes_NoDup _ _ Htc) as Hnd.
  rewrite <- touches_iff.
  assert (Hin : In t (map ChannelEvent.time evs)
                <-> touches (dict_values vars) changes = true).
  { rewrite Htimes, in_map_iff. split.
    - intros ([t' chs] & Heq & Hf). simpl in Heq. subst t'.
      apply filter_In in Hf. destruct Hf as [Hf Ht]. simpl in Ht.
      apply (NoDup_In_dict_get Z.eqb Z.eqb_eq _ _ _ Hnd) in Hf.
      rewrite Hget in Hf. now injection Hf as <-.
    - intros Ht. exists (t, changes). split; [reflexivity|].
      apply filter_In. split; [|exact Ht].
      now apply (dict_get_In Z.eqb Z.eqb_eq). }
  rewrite <- Hin, in_map_iff. split.
  - intros (e & He & Het). eauto.
  - intros (e & Het & He). eauto.
Qed.

Lemma event_iff_sibling_changed_witness :
  VcdSimulation.time_changes scenario_e
  = Ok [(5, [Change.mk "#" (VStr "1")])]
  /\ ((exists e, In e [ChannelEvent.mk 5 "1X"] /\ ChannelEvent.time e = 5)
      <->
      (exists change var,
          In change [Change.mk "#" (VStr "1")]
          /\ In var (dict_values [(Idx 1, bit1); (Idx 0, bit0)])
          /\ Change.id_code change = VarDecl.id_code var)).
Proof.
  split; [reflexivity|].
  apply (event_iff_sibling_changed scenario_e
           [(Idx 1, bit1); (Idx 0, bit0)]
           [(5, [Change.mk "#" (VStr "1")])]
           [ChannelEvent.mk 5 "1X"] 5 [Change.mk "#" (VStr "1")]);
    reflexivity.
Defined.

(** C4, as stated, fails: in scenario E the reconstructor yields the one
    event (5, "1X"), not (5, "X1"). *)
Lemma scenario_e_not_X1 :
  VcdSimulation.to_channel scenario_e
  = Ok [Channel.mk 2 "top" "data" [ChannelEvent.mk 5 "1X"]]
  /\ VcdSimulation.to_channel scenario_e
     <> Ok [Channel.mk 2 "top" "data" [ChannelEvent.mk 5 "X1"]].
Proof. split; [reflexivity | discriminate]. Qed.

(** C4, amended.  For two sibling declarations, one at bit-index 1 and one
    at bit-index 0 with different id-codes, in either declaration order,
    when the Timed Change Set holds the single change of the bit-index 0
    sibling to ['1'] at time 5, the reconstructor yields exactly one event,
    (5, "1X"): position 0 of the buffer, the first character, is the
    lowest bit-index, and position 1 keeps ['X']. *)
Theorem scenario_e_low_bit_first
    (tokens : list Token) (vars : Dict BitIndex VarDecl.t)
    (d1 d0 : VarDecl.t) :
  VcdSimulation.time_changes tokens
  = Ok [(5, [Change.mk (VarDecl.id_code d0) (VStr "1")])] ->
  VarDecl.bit_index d1 = Idx 1 ->
  VarDecl.bit_index d0 = Idx 0 ->
  VarDecl.id_code d1 <> VarDecl.id_code d0 ->
  dict_values vars = [d1; d0] \/ dict_values vars = [d0; d1] ->
  VcdSimulation.to_events tokens vars = Ok [ChannelEvent.mk 5 "1X"].
Proof.
  intros Htc H1 H0 Hne Hvars.
  assert (Hlen : List.length vars = 2%nat).
  { unfold dict_values in Hvars.
    rewrite <- (length_map snd). now destruct Hvars as [-> | ->]. }
  assert (Hsort : sorted_desc (dict_values vars) = Ok [d1; d0]).
  { destruct Hvars as [-> | ->]; simpl; rewrite ?H1, ?H0; reflexivity. }
  unfold VcdSimulation.to_events. rewrite Hlen, Hsort, Htc. simpl.
  unfold VcdSimulation.change_step, VcdSimulation.var_step. simpl.
  destruct (String.eqb_spec (VarDecl.id_code d0) (VarDecl.id_code d1))
    as [Heq|_]; [now symmetry in Heq|].
  simpl. rewrite String.eqb_refl, H0. reflexivity.
Qed.

Lemma scenario_e_low_bit_first_witness :
  VcdSimulation.to_events scenario_e [(Idx 0, bit0); (Idx 1, bit1)]
  = Ok [ChannelEvent.mk 5 "1X"].
Proof.
  apply (scenario_e_low_bit_first scenario_e
           [(Idx 0, bit0); (Idx 1, bit1)] bit1 bit0);
    try reflexivity.
  - discriminate.
  - right; reflexivity.
Defined.

Section ToChannelFacts.
Import VcdSimulation.

(** Every Channel of [to_channel] holds the events that [to_events] gives
    for one group of sibling declarations of the Declaration Index. *)
Lemma channel_loop_events (tokens : list Token) (module : string)
    (channels : Dict string (Dict BitIndex VarDecl.t)) :
  forall acc acc',
    for_each (channel_step tokens module) acc channels = Ok acc' ->
    forall c, In c acc' ->
      In c acc \/
      exists vars,
        In vars (dict_values channels)
        /\ to_events tokens vars = Ok (Channel.events c)
        /\ Channel.size c = Z.of_nat (List.length vars).
Proof.
  induction channels as [|[channel_name vars] channels IH];
    intros acc acc' Hrun c Hc.
  - simpl in Hrun. injection Hrun as <-. now left.
  - rewrite for_each_cons in Hrun. unfold channel_step at 1 in Hrun.
    destruct (to_events tokens vars) as [events|] eqn:Hev; simpl in Hrun;
      [|discriminate].
    destruct (IH _ _ Hrun c Hc) as [Hin|(vars' & Hin & H)].
    + apply in_app_or in Hin. destruct Hin as [Hin|[<-|[]]]; [now left|].
      right. exists vars. simpl. auto.
    + right. exists vars'. simpl. auto.
Qed.

Lemma scope_loop_events (tokens : list Token)
    (scopes : Dict string (Dict string (Dict BitIndex VarDecl.t))) :
  forall acc acc',
    for_each (scope_step tokens) acc scopes = Ok acc' ->
    forall c, In c acc' ->
      In c acc \/
      exists channels vars,
        In channels (dict_values scopes)
        /\ In vars (dict_values channels)
        /\ to_events tokens vars = Ok (Channel.events c)
        /\ Channel.size c = Z.of_nat (List.length vars).
Proof.
  induction scopes as [|[module channels] scopes IH];
    intros acc acc' Hrun c Hc.
  - simpl in Hrun. injection Hrun as <-. now left.
  - rewrite for_each_cons in Hrun. unfold scope_step at 1 in Hrun.
    destruct (for_each (channel_step tokens module) acc channels)
      as [acc1|] eqn:Hch; simpl in Hrun; [|discriminate].
    destruct (IH _ _ Hrun c Hc) as [Hin|(chs & vars & Hin & H)].
    + destruct (channel_loop_events _ _ _ _ _ Hch c Hin)
        as [Hacc|(vars & Hin' & H)]; [now left|].
      right. exists channels, vars. simpl. auto.
    + right. exists chs, vars. simpl. auto.
Qed.

Lemma to_channel_events (tokens : list Token) (chans : list Channel.t)
    (c : Channel.t) :
  to_channel tokens = Ok chans -> In c chans ->
  exists vars,
    to_events tokens vars = Ok (Channel.events c)
    /\ Channel.size c = Z.of_nat (List.length vars).
Proof.
  unfold to_channel. intros Hrun Hc.
  destruct (scope_vars tokens) as [sv|]; simpl in Hrun; [|discriminate].
  destruct (scope_loop_events _ _ _ _ Hrun c Hc)
    as [[]|(chs & vars & _ & _ & H)].
  eauto.
Qed.

Lemma markers_cons (token : Token) (rest : list Token) :
  markers (token :: rest) =
  match token with
  | TokChangeTime t => t :: markers rest
  | _ => markers rest
  end.
Proof. unfold markers. simpl. now destruct token. Qed.

(** With strictly increasing markers every marker opens a new key, at the
    end: the keys of the Timed Change Set are the markers in source
    order. *)
Lemma run_keys (tokens : list Token) :
  forall time acc time' acc',
    StronglySorted Z.lt (markers tokens) ->
    (forall k m, In k (map fst acc) -> In m (markers tokens) -> k < m) ->
    for_each time_changes_step (time, acc) tokens = Ok (time', acc') ->
    map fst acc' = map fst acc ++ markers tokens.
Proof.
  induction tokens as [|token rest IH];
    intros time acc time' acc' Hs Hlt Hrun.
  - simpl in Hrun. injection Hrun as <- <-. simpl. now rewrite app_nil_r.
  - rewrite for_each_cons in Hrun. rewrite markers_cons in *.
    destruct (marker_dec token) as [[t1 ->]|Hnm].
    + rewrite step_marker in Hrun. simpl in Hrun.
      inversion Hs as [|? ? Hs' Hall]; subst. rewrite Forall_forall in Hall.
      assert (Hnew : map fst (dict_set Z.eqb t1 [] acc) = map fst acc ++ [t1]).
      { rewrite (dict_set_keys Z.eqb). unfold dict_mem.
        destruct (dict_get Z.eqb t1 acc) eqn:Hget; [|reflexivity].
        apply (dict_get_In Z.eqb Z.eqb_eq) in Hget.
        apply (in_map fst) in Hget. simpl in Hget.
        specialize (Hlt t1 t1 Hget (or_introl eq_refl)). lia. }
      apply IH in Hrun; [|assumption|].
      * rewrite Hrun, Hnew, <- app_assoc. reflexivity.
      * intros k m Hk Hm. rewrite Hnew in Hk. apply in_app_or in Hk.
        destruct Hk as [Hk|[<-|[]]].
        -- apply Hlt; [assumption | now right].
        -- now apply Hall.
    + assert (Hm : match token with
                   | TokChangeTime t => t :: markers rest
                   | _ => markers rest
                   end = markers rest).
      { destruct token; try reflexivity. now contradiction (Hnm t). }
      rewrite Hm in *.
      rewrite (step_not_marker _ _ _ Hnm) in Hrun.
      destruct (recorded [token]) as [|change ?]; simpl in Hrun.
      * eapply IH; eassumption.
      * destruct time as [t|]; [|discriminate]. unfold dict_getitem in Hrun.
        destruct (dict_get Z.eqb t acc) as [changes|] eqn:Hget;
          simpl in Hrun; [|discriminate].
        assert (Hsame : map fst (dict_set Z.eqb t (changes ++ [change]) acc)
                        = map fst acc).
        { rewrite (dict_set_keys Z.eqb). unfold dict_mem. now rewrite Hget. }
        apply IH in Hrun; [|assumption|]; rewrite Hsame in *; assumption.
Qed.

Lemma time_changes_keys (tokens : list Token) (tc : Dict Z (list Change.t)) :
  StronglySorted Z.lt (markers tokens) ->
  time_changes tokens = Ok tc ->
  map fst tc = markers tokens.
Proof.
  unfold time_changes. intros Hs.
  destruct (for_each time_changes_step _ tokens) as [[time acc]|] eqn:Hrun;
    simpl; [|discriminate].
  intros H; injection H as <-.
  apply run_keys in Hrun; [exact Hrun | assumption | intros k m []].
Qed.

Lemma StronglySorted_filter_keys {V : Type} (f : Z * V -> bool)
    (items : list (Z * V)) :
  StronglySorted Z.lt (map fst items) ->
  StronglySorted Z.lt (map fst (filter f items)).
Proof.
  induction items as [|item items IH]; simpl; intros Hs; [constructor|].
  inversion Hs as [|? ? Hs' Hall]; subst.
  destruct (f item); simpl; [|now apply IH].
  constructor; [now apply IH|].
  rewrite Forall_forall in *. intros k Hk. apply Hall.
  apply in_map_iff in Hk. destruct Hk as (it & <- & Hit).
  apply filter_In in Hit. now apply in_map.
Qed.

Lemma strictly_increasing_times (evs : list ChannelEvent.t) :
  StronglySorted Z.lt (map ChannelEvent.time evs) -> strictly_increasing evs.
Proof.
  unfold strictly_increasing.
  induction evs as [|e evs IH]; simpl; intros Hs; [constructor|].
  inversion Hs as [|? ? Hs' Hall]; subst.
  constructor; [now apply IH|].
  rewrite Forall_forall in *. intros e' He'. apply Hall. now apply in_map.
Qed.

End ToChannelFacts.

(** C5, as stated, fails: the markers of [redump] are strictly increasing
    and its channel holds two consecutive events of equal value. *)
Lemma redump_repeats_value :
  exists chans c,
    StronglySorted Z.lt (markers redump)
    /\ VcdSimulation.to_channel redump = Ok chans
    /\ In c chans
    /\ Channel.events c = [ChannelEvent.mk 0 "1"; ChannelEvent.mk 5 "1"]
    /\ ~ no_repeated_value (Channel.events c).
Proof.
  exists [Channel.mk 1 "top" "clk"
            [ChannelEvent.mk 0 "1"; ChannelEvent.mk 5 "1"]].
  eexists. split; [|split; [reflexivity|split; [left; reflexivity|]]].
  - simpl. repeat (constructor; try lia).
  - split; [reflexivity|]. simpl. intros H.
    now apply (H 0%nat (ChannelEvent.mk 0 "1") (ChannelEvent.mk 5 "1")).
Qed.

(** C5, amended.  For a token sequence whose timestamp markers are strictly
    increasing, the event sequence of every Channel produced by the
    reconstructor is strictly increasing in timestamp. *)
Theorem channel_events_strictly_increasing
    (tokens : list Token) (chans : list Channel.t) (c : Channel.t) :
  StronglySorted Z.lt (markers tokens) ->
  VcdSimulation.to_channel tokens = Ok chans ->
  In c chans ->
  strictly_increasing (Channel.events c).
Proof.
  intros Hs Hrun Hc.
  destruct (to_channel_events _ _ _ Hrun Hc) as (vars & Hev & _).
  destruct (to_events_times _ _ _ Hev) as (tc & Htc & Htimes).
  apply strictly_increasing_times. rewrite Htimes.
  apply StronglySorted_filter_keys.
  now rewrite (time_changes_keys _ _ Hs Htc).
Qed.

Lemma channel_events_strictly_increasing_witness :
  StronglySorted Z.lt (markers redump)
  /\ strictly_increasing [ChannelEvent.mk 0 "1"; ChannelEvent.mk 5 "1"].
Proof.
  assert (Hs : StronglySorted Z.lt (markers redump)).
  { simpl. repeat (constructor; try lia). }
  split; [exact Hs|].
  apply (channel_events_strictly_increasing redump
           [Channel.mk 1 "top" "clk"
              [ChannelEvent.mk 0 "1"; ChannelEvent.mk 5 "1"]]
           (Channel.mk 1 "top" "clk"
              [ChannelEvent.mk 0 "1"; ChannelEvent.mk 5 "1"])).
  - exact Hs.
  - reflexivity.
  - left; reflexivity.
Defined.

Section BufferFacts.
Import VcdSimulation.

Lemma set_nth_length {A : Type} (n : nat) (v : A) (l : list A) :
  List.length (set_nth n v l) = List.length l.
Proof.
  revert n; induction l as [|x l IH]; intros [|n]; simpl; auto.
Qed.

Lemma set_nth_Forall {A : Type} (P : A -> Prop) (n : nat) (v : A)
    (l : list A) :
  P v -> Forall P l -> Forall P (set_nth n v l).
Proof.
  intros Hv. revert n; induction l as [|x l IH]; intros [|n] Hl; simpl;
    inversion Hl; subst; constructor; auto.
Qed.

Lemma list_setitem_in_range {A : Type} (l : list A) (index : Z) (v : A) :
  0 <= index < Z.of_nat (List.length l) ->
  list_setitem l index v = Ok (set_nth (Z.to_nat index) v l).
Proof.
  intros [Hlo Hhi]. unfold list_setitem.
  destruct (Z.ltb_spec index 0); [lia|].
  destruct (Z.leb_spec 0 index); [|lia].
  destruct (Z.ltb_spec index (Z.of_nat (List.length l))); [|lia].
  reflexivity.
Qed.

Lemma string_length_append (a b : string) :
  String.length (a ++ b) = (String.length a + String.length b)%nat.
Proof. induction a as [|x a IH]; simpl; [reflexivity | now rewrite IH]. Qed.

(** Joining a buffer of one-character strings gives a string with one
    character per position. *)
Lemma join_empty_chars (value : list PyVal) :
  Forall is_char value ->
  exists text,
    join_empty value = Ok text /\ String.length text = List.length value.
Proof.
  induction 1 as [|v value [ch ->] _ (text & Hjoin & Hlen)]; simpl.
  - eauto.
  - rewrite Hjoin. simpl. eexists; split; [reflexivity|].
    simpl. now rewrite Hlen.
Qed.

Lemma var_loop_buffer (n : nat) (change : Change.t) (vars : list VarDecl.t) :
  Forall (in_range n) vars ->
  good_change vars change ->
  forall value flag,
    char_buffer n value ->
    exists value' flag',
      for_each (var_step change) (value, flag) vars = Ok (value', flag')
      /\ char_buffer n value'.
Proof.
  induction vars as [|var vars IH]; intros Hrange Hgood value flag Hbuf.
  - simpl. eauto.
  - rewrite for_each_cons. unfold var_step at 1.
    inversion Hrange as [|? ? (i & Hi & Hbound) Hrange']; subst.
    assert (Hgood' : good_change vars change).
    { intros v Hv. apply Hgood. now right. }
    destruct (String.eqb_spec (Change.id_code change) (VarDecl.id_code var))
      as [Heq|_]; simpl; [|now apply IH].
    rewrite Hi. destruct Hbuf as [Hlen Hchars].
    rewrite list_setitem_in_range by (rewrite Hlen; exact Hbound). simpl.
    apply IH; try assumption. split.
    + now rewrite set_nth_length.
    + apply set_nth_Forall; [|assumption].
      apply (Hgood var); [now left | assumption].
Qed.

Lemma change_loop_buffer (n : nat) (vars : list VarDecl.t)
    (changes : list Change.t) :
  Forall (in_range n) vars ->
  Forall (good_change vars) changes ->
  forall value flag,
    char_buffer n value ->
    exists value' flag',
      for_each (change_step vars) (value, flag) changes = Ok (value', flag')
      /\ char_buffer n value'.
Proof.
  intros Hrange. induction 1 as [|change changes Hgood _ IH];
    intros value flag Hbuf.
  - simpl. eauto.
  - rewrite for_each_cons. unfold change_step at 1.
    destruct (var_loop_buffer n change vars Hrange Hgood value flag Hbuf)
      as (v1 & f1 & -> & Hbuf1). simpl.
    now apply IH.
Qed.

Lemma time_loop_buffer (n : nat) (vars : list VarDecl.t)
    (items : Dict Z (list Change.t)) :
  Forall (in_range n) vars ->
  Forall (fun item => Forall (good_change vars) (snd item)) items ->
  forall value acc,
    char_buffer n value ->
    Forall (fun e => String.length (ChannelEvent.value e) = n) acc ->
    exists value' acc',
      for_each (time_step vars) (value, acc) items = Ok (value', acc')
      /\ Forall (fun e => String.length (ChannelEvent.value e) = n) acc'.
Proof.
  intros Hrange. induction 1 as [|[time changes] items Hgood _ IH];
    intros value acc Hbuf Hacc.
  - simpl. eauto.
  - rewrite for_each_cons. unfold time_step at 1. simpl in Hgood.
    destruct (change_loop_buffer n vars changes Hrange Hgood value false Hbuf)
      as (v1 & f1 & -> & Hbuf1). simpl.
    destruct f1; [|now apply IH].
    destruct (join_empty_chars v1 (proj2 Hbuf1)) as (text & -> & Hlen).
    simpl. apply IH; [assumption|].
    apply Forall_app. split; [assumption|].
    constructor; [|constructor]. simpl. rewrite Hlen. apply Hbuf1.
Qed.

Lemma insert_desc_idx (x : VarDecl.t) (l : list VarDecl.t) (n : nat) :
  in_range n x -> Forall (in_range n) l ->
  exists s, insert_desc x l = Ok s.
Proof.
  intros (i & Hi & _). induction 1 as [|y l (j & Hj & _) _ [s IH]]; simpl.
  - eauto.
  - rewrite Hi, Hj. simpl. destruct (i <? j); [|eauto].
    rewrite IH. simpl. eauto.
Qed.

(** Declarations that all carry an [int] bit-index can be sorted. *)
Lemma sorted_desc_idx (l : list VarDecl.t) (n : nat) :
  Forall (in_range n) l -> exists s, sorted_desc l = Ok s.
Proof.
  induction 1 as [|x l Hx Hl [s IH]]; simpl; [eauto|].
  rewrite IH. simpl. apply (insert_desc_idx x s n Hx).
  rewrite Forall_forall in *. intros y Hy. apply Hl.
  eapply Permutation_in; [apply Permutation_sym, sorted_desc_perm|];
    eassumption.
Qed.

End BufferFacts.

(** C8, as stated, fails: the channel [mem] of [mem_dump] has the two
    sibling declarations of bit-indices 1 and 0, and its event carries a
    composite value of three characters. *)
Lemma mem_dump_value_too_long :
  VcdSimulation.to_channel mem_dump
  = Ok [Channel.mk 2 "top" "mem" [ChannelEvent.mk 0 "Xx1"]]
  /\ String.length "Xx1" <> 2%nat.
Proof. split; [reflexivity | discriminate]. Qed.

(** Once the Timed Change Set exists, such a group is reconstructed without
    an exception, into events of N characters each. *)
Lemma to_events_char_buffer
    (tokens : list Token) (vars : Dict BitIndex VarDecl.t)
    (tc : Dict Z (list Change.t)) :
  VcdSimulation.time_changes tokens = Ok tc ->
  (forall var, In var (dict_values vars) ->
     exists i, VarDecl.bit_index var = Idx i
               /\ 0 <= i < Z.of_nat (List.length vars)) ->
  (forall t changes change var,
     In (t, changes) tc -> In change changes ->
     In var (dict_values vars) ->
     Change.id_code change = VarDecl.id_code var ->
     is_char (Change.value change)) ->
  exists evs,
    VcdSimulation.to_events tokens vars = Ok evs
    /\ forall e, In e evs ->
         String.length (ChannelEvent.value e) = List.length vars.
Proof.
  intros Htc Hidx Hchars.
  set (n := List.length vars) in *.
  assert (Hrange : Forall (in_range n) (dict_values vars)).
  { apply Forall_forall. exact Hidx. }
  destruct (sorted_desc_idx _ _ Hrange) as [vars' Hsort].
  pose proof (sorted_desc_perm _ _ Hsort) as Hperm.
  assert (Hrange' : Forall (in_range n) vars').
  { rewrite Forall_forall in *. intros v Hv. apply Hrange.
    eapply Permutation_in; [apply Permutation_sym|]; eassumption. }
  assert (Hgood : Forall (fun item => Forall (good_change vars') (snd item)) tc).
  { apply Forall_forall. intros [t changes] Hitem. simpl.
    apply Forall_forall. intros change Hchange var Hvar Hid.
    apply (Hchars t changes change var); try assumption.
    eapply Permutation_in; [apply Permutation_sym|]; eassumption. }
  assert (Hbuf : char_buffer n (repeat (VStr "X") n)).
  { split; [apply repeat_length|].
    apply Forall_forall. intros v Hv. apply repeat_spec in Hv. subst v.
    now exists "X"%char. }
  destruct (time_loop_buffer n vars' tc Hrange' Hgood _ [] Hbuf
              (Forall_nil _)) as (value' & acc' & Hloop & Hlen).
  exists acc'. split.
  - unfold VcdSimulation.to_events. fold n. rewrite Hsort, Htc. simpl.
    rewrite Hloop. reflexivity.
  - now apply Forall_forall.
Qed.

(** C8, amended.  For a channel whose sibling declarations carry
    bit-indices within 0..N-1, N their number, in whatever order they were
    declared, and a Timed Change Set in which every change addressed to a
    sibling carries a one-character value, the composite value of every
    emitted event has N characters. *)
Theorem composite_value_length
    (tokens : list Token) (vars : Dict BitIndex VarDecl.t)
    (tc : Dict Z (list Change.t)) (evs : list ChannelEvent.t) :
  VcdSimulation.time_changes tokens = Ok tc ->
  VcdSimulation.to_events tokens vars = Ok evs ->
  (forall var, In var (dict_values vars) ->
     exists i, VarDecl.bit_index var = Idx i
               /\ 0 <= i < Z.of_nat (List.length vars)) ->
  (forall t changes change var,
     In (t, changes) tc -> In change changes ->
     In var (dict_values vars) ->
     Change.id_code change = VarDecl.id_code var ->
     is_char (Change.value change)) ->
  forall e, In e evs ->
    String.length (ChannelEvent.value e) = List.length vars.
Proof.
  intros Htc Hev Hidx Hchars.
  destruct (to_events_char_buffer tokens vars tc Htc Hidx Hchars)
    as (evs' & Hev' & Hlen).
  rewrite Hev in Hev'. injection Hev' as <-. exact Hlen.
Qed.

Lemma composite_value_length_witness :
  VcdSimulation.to_events scenario_e [(Idx 0, bit0); (Idx 1, bit1)]
  = Ok [ChannelEvent.mk 5 "1X"]
  /\ forall e, In e [ChannelEvent.mk 5 "1X"] ->
       String.length (ChannelEvent.value e) = 2%nat.
Proof.
  split; [reflexivity|].
  apply (composite_value_length scenario_e
           [(Idx 0, bit0); (Idx 1, bit1)]
           [(5, [Change.mk "#" (VStr "1")])]
           [ChannelEvent.mk 5 "1X"]).
  - reflexivity.
  - reflexivity.
  - intros var [<-|[<-|[]]]; simpl; [exists 0 | exists 1]; split;
      try reflexivity; lia.
  - intros t changes change var [Heq|[]] Hchange _ _.
    injection Heq as <- <-. destruct Hchange as [<-|[]].
    now exists "1"%char.
Defined.

Section UndeclaredChange.
Import VcdSimulation.

Lemma for_each_skip {A S : Type} (body : S -> A -> Exc S) (x : A)
    (pre post : list A) (s : S) :
  (forall s', body s' x = Ok s') ->
  for_each body s (pre ++ x :: post) = for_each body s (pre ++ post).
Proof.
  intros Hskip. rewrite !for_each_app.
  destruct (for_each body s pre) as [s1|]; simpl; [|reflexivity].
  now rewrite Hskip.
Qed.

Lemma for_each_ext_in {A S : Type} (f g : S -> A -> Exc S) (xs : list A) :
  (forall s x, In x xs -> f s x = g s x) ->
  forall s, for_each f s xs = for_each g s xs.
Proof.
  induction xs as [|x xs IH]; intros Hext s; simpl; [reflexivity|].
  rewrite (Hext s x (or_introl eq_refl)).
  destruct (g s x); simpl; [|reflexivity].
  apply IH. intros s' y Hy. apply Hext. now right.
Qed.

(** The Declaration Index does not look at value changes. *)
Lemma scope_vars_ignores_change (pre post : list Token) (token : Token)
    (change : Change.t) :
  change_data token = Some change ->
  scope_vars (pre ++ token :: post) = scope_vars (pre ++ post).
Proof.
  intros Hdata. unfold scope_vars. f_equal.
  apply for_each_skip. intros [scope acc].
  destruct token; try discriminate; reflexivity.
Qed.

Section Strip.
Variable id : string.

Lemma strip_get (t : Z) (acc : Dict Z (list Change.t)) :
  dict_get Z.eqb t (strip id acc) =
  option_map (without id) (dict_get Z.eqb t acc).
Proof.
  induction acc as [|[t' l] acc IH]; simpl; [reflexivity|].
  destruct (t =? t'); [reflexivity | exact IH].
Qed.

Lemma strip_set (t : Z) (l : list Change.t) (acc : Dict Z (list Change.t)) :
  strip id (dict_set Z.eqb t l acc) =
  dict_set Z.eqb t (without id l) (strip id acc).
Proof.
  induction acc as [|[t' l'] acc IH]; simpl; [reflexivity|].
  destruct (t =? t'); simpl; [reflexivity | now rewrite IH].
Qed.

Lemma dict_set_same (t : Z) (l : list Change.t) (acc : Dict Z (list Change.t)) :
  dict_get Z.eqb t acc = Some l -> dict_set Z.eqb t l acc = acc.
Proof.
  induction acc as [|[t' l'] acc IH]; simpl; [discriminate|].
  destruct (t =? t').
  - intros H; injection H as ->. reflexivity.
  - intros H. now rewrite IH.
Qed.

Lemma without_app (l1 l2 : list Change.t) :
  without id (l1 ++ l2) = without id l1 ++ without id l2.
Proof. apply filter_app. Qed.

(** One turn of the loop keeps two states equal up to the changes of
    [id], and raises in the one exactly when it raises in the other. *)
Lemma step_same_but (st st0 : option Z * Dict Z (list Change.t))
    (token : Token) :
  same_but id st st0 ->
  exc_rel (same_but id)
    (time_changes_step st token) (time_changes_step st0 token).
Proof.
  destruct st as [time acc], st0 as [time0 acc0].
  intros [Htime Hacc]. simpl in Htime, Hacc. subst time0.
  destruct (marker_dec token) as [[t1 ->]|Hnm].
  - rewrite !step_marker. simpl. split; [reflexivity|]. simpl.
    now rewrite !strip_set, Hacc.
  - rewrite !(step_not_marker _ _ _ Hnm).
    destruct (recorded [token]) as [|change ?]; simpl.
    + now split.
    + destruct time as [t|]; simpl; [|reflexivity].
      pose proof (strip_get t acc) as Hg. pose proof (strip_get t acc0) as Hg0.
      rewrite Hacc in Hg. rewrite Hg in Hg0. unfold dict_getitem.
      destruct (dict_get Z.eqb t acc) as [l1|],
               (dict_get Z.eqb t acc0) as [l0|]; simpl in *;
        try discriminate; [|reflexivity].
      injection Hg0 as Hl. split; [reflexivity|]. simpl.
      now rewrite !strip_set, !without_app, Hl, Hacc.
Qed.

Lemma run_same_but (tokens : list Token) :
  forall st st0,
    same_but id st st0 ->
    exc_rel (same_but id)
      (for_each time_changes_step st tokens)
      (for_each time_changes_step st0 tokens).
Proof.
  induction tokens as [|token rest IH]; intros st st0 Hrel; [exact Hrel|].
  rewrite !for_each_cons.
  pose proof (step_same_but st st0 token Hrel) as Hstep.
  destruct (time_changes_step st token) as [s1|e1],
           (time_changes_step st0 token) as [s2|e2]; simpl in *;
    try contradiction; [now apply IH | assumption].
Qed.

End Strip.

(** After a marker the current time is bound, and it is a key. *)
Lemma run_after_marker (pre : list Token) :
  forall time acc time' acc',
    markers pre <> [] ->
    for_each time_changes_step (time, acc) pre = Ok (time', acc') ->
    exists t l, time' = Some t /\ dict_get Z.eqb t acc' = Some l.
Proof.
  induction pre as [|token rest IH]; intros time acc time' acc' Hm Hrun;
    [now contradiction Hm|].
  rewrite for_each_cons in Hrun.
  destruct (marker_dec token) as [[t1 ->]|Hnm].
  - rewrite step_marker in Hrun. simpl in Hrun.
    destruct (run_from_marker_total rest t1 (dict_set Z.eqb t1 [] acc))
      as (t' & acc1 & Hrun' & Hkey).
    { rewrite (dict_get_set_same Z.eqb Z.eqb_eq). discriminate. }
    rewrite Hrun' in Hrun. injection Hrun as <- <-.
    destruct (dict_get Z.eqb t' acc1) as [l|] eqn:Hget; [eauto|].
    now contradiction Hkey.
  - rewrite markers_cons in Hm.
    assert (Hm' : markers rest <> []).
    { destruct token; try assumption. now contradiction (Hnm t). }
    destruct (time_changes_step (time, acc) token) as [[time1 acc1]|];
      simpl in Hrun; [|discriminate].
    eapply IH; eassumption.
Qed.

(** Taking a value change out of the token sequence, after a marker,
    changes the Timed Change Set at most in the changes of its id-code. *)
Lemma time_changes_without_token (pre post : list Token) (token : Token)
    (change : Change.t) :
  change_data token = Some change ->
  markers pre <> [] ->
  exc_rel
    (fun tc tc0 =>
       strip (Change.id_code change) tc = strip (Change.id_code change) tc0)
    (time_changes (pre ++ token :: post)) (time_changes (pre ++ post)).
Proof.
  intros Hdata Hm. unfold time_changes. rewrite !for_each_app.
  destruct (for_each time_changes_step (None, []) pre) as [[time acc]|e]
    eqn:Hpre; cbn [bind]; [|reflexivity].
  destruct (run_after_marker _ _ _ _ _ Hm Hpre) as (t & l & -> & Hget).
  rewrite for_each_cons.
  assert (Hstep : exists acc1,
             time_changes_step (Some t, acc) token = Ok (Some t, acc1)
             /\ strip (Change.id_code change) acc1
                = strip (Change.id_code change) acc).
  { assert (Hnm : forall t0, token <> TokChangeTime t0)
      by (intros t0 ->; discriminate).
    rewrite (step_not_marker _ _ _ Hnm).
    unfold recorded. simpl. rewrite Hdata, app_nil_r.
    destruct (is_recorded_kind (kind token)); simpl; [|eauto].
    unfold dict_getitem. rewrite Hget. simpl.
    eexists; split; [reflexivity|].
    rewrite strip_set, without_app. simpl.
    rewrite String.eqb_refl. simpl. rewrite app_nil_r.
    apply dict_set_same. rewrite strip_get, Hget. reflexivity. }
  destruct Hstep as (acc1 & -> & Hstrip). simpl.
  pose proof (run_same_but (Change.id_code change) post
                (Some t, acc1) (Some t, acc) (conj eq_refl Hstrip)) as Hrun.
  destruct (for_each time_changes_step (Some t, acc1) post) as [[t1 a1]|e1],
           (for_each time_changes_step (Some t, acc) post) as [[t0 a0]|e0];
    simpl in *; try contradiction; [apply Hrun | assumption].
Qed.

Section NoSibling.
Variable id : string.
Variable vars : list VarDecl.t.
Hypothesis no_sibling : forall var, In var vars -> VarDecl.id_code var <> id.

(** A change of an id-code that no sibling carries leaves the buffer and
    [has_changed] as they are. *)
Lemma var_loop_skip (change : Change.t) (st : list PyVal * bool) :
  Change.id_code change = id ->
  change_step vars st change = Ok st.
Proof.
  intros Hid. unfold change_step. revert no_sibling.
  induction vars as [|var l IH]; intros Hno; [reflexivity|].
  rewrite for_each_cons. unfold var_step at 1. destruct st as [value flag].
  destruct (String.eqb_spec (Change.id_code change) (VarDecl.id_code var))
    as [Heq|_].
  - exfalso. apply (Hno var); [now left | congruence].
  - simpl. apply IH. intros v Hv. apply Hno. now right.
Qed.

Lemma change_loop_without (changes : list Change.t) :
  forall st,
    for_each (change_step vars) st changes =
    for_each (change_step vars) st (without id changes).
Proof.
  induction changes as [|change changes IH]; intros st; [reflexivity|].
  rewrite for_each_cons. unfold without. simpl.
  destruct (String.eqb_spec (Change.id_code change) id) as [Hid|_]; simpl.
  - rewrite (var_loop_skip change st Hid). simpl. apply IH.
  - destruct (change_step vars st change); simpl; [apply IH | reflexivity].
Qed.

Lemma time_loop_strip (items : Dict Z (list Change.t)) :
  forall st,
    for_each (time_step vars) st items =
    for_each (time_step vars) st (strip id items).
Proof.
  induction items as [|[time changes] items IH]; intros st; [reflexivity|].
  simpl strip. rewrite !for_each_cons.
  assert (Hstep : time_step vars st (time, changes)
                  = time_step vars st (time, without id changes)).
  { unfold time_step. destruct st as [value acc].
    now rewrite change_loop_without. }
  rewrite Hstep.
  destruct (time_step vars st (time, without id changes)); simpl;
    [apply IH | reflexivity].
Qed.

End NoSibling.

Lemma to_events_without_token (pre post : list Token) (token : Token)
    (change : Change.t) (vars : Dict BitIndex VarDecl.t) :
  change_data token = Some change ->
  markers pre <> [] ->
  (forall var, In var (dict_values vars) ->
               VarDecl.id_code var <> Change.id_code change) ->
  to_events (pre ++ token :: post) vars = to_events (pre ++ post) vars.
Proof.
  intros Hdata Hm Hno. unfold to_events.
  destruct (sorted_desc (dict_values vars)) as [vars'|] eqn:Hsort; simpl;
    [|reflexivity].
  assert (Hno' : forall var, In var vars' ->
                             VarDecl.id_code var <> Change.id_code change).
  { intros var Hvar. apply Hno.
    eapply Permutation_in;
      [apply Permutation_sym, sorted_desc_perm|]; eassumption. }
  pose proof (time_changes_without_token pre post token change Hdata Hm)
    as Hrel.
  destruct (time_changes (pre ++ token :: post)) as [tc|e],
           (time_changes (pre ++ post)) as [tc0|e0]; simpl in *;
    try contradiction; [|now subst].
  rewrite (time_loop_strip _ vars' Hno' tc).
  rewrite (time_loop_strip _ vars' Hno' tc0).
  now rewrite Hrel.
Qed.

Lemma declarations_In
    (sv : Dict string (Dict string (Dict BitIndex VarDecl.t)))
    (module channel_name : string)
    (channels : Dict string (Dict BitIndex VarDecl.t))
    (vars : Dict BitIndex VarDecl.t) (var : VarDecl.t) :
  In (module, channels) sv -> In (channel_name, vars) channels ->
  In var (dict_values vars) -> In var (declarations sv).
Proof.
  intros Hs Hc Hv. unfold declarations.
  apply in_flat_map. exists (module, channels). split; [assumption|].
  apply in_flat_map. exists (channel_name, vars). now split.
Qed.

End UndeclaredChange.

(** C2, as stated, fails: [stray_change] holds a change of the id-code "?",
    which no declaration of the Declaration Index carries, and the
    reconstruction completes with the channel of the declared signal. *)
Lemma stray_change_completes :
  (exists sv,
      VcdSimulation.scope_vars stray_change = Ok sv
      /\ forall var, In var (declarations sv) -> VarDecl.id_code var <> "?")
  /\ VcdSimulation.to_channel stray_change
     = Ok [Channel.mk 1 "top" "clk" []].
Proof.
  split; [|reflexivity].
  eexists. split; [reflexivity|].
  intros var [<-|[]]. discriminate.
Qed.

(** C2, amended.  A value-change token that follows a timestamp marker and
    whose id-code matches no declaration of the Declaration Index does not
    abort the reconstruction: it is ignored, the reconstruction yields what
    it yields for the token sequence without that token. *)
Theorem undeclared_change_ignored
    (pre post : list Token) (token : Token) (change : Change.t) :
  change_data token = Some change ->
  markers pre <> [] ->
  (forall sv var,
      VcdSimulation.scope_vars (pre ++ token :: post) = Ok sv ->
      In var (declarations sv) ->
      VarDecl.id_code var <> Change.id_code change) ->
  VcdSimulation.to_channel (pre ++ token :: post)
  = VcdSimulation.to_channel (pre ++ post).
Proof.
  intros Hdata Hm Hno. unfold VcdSimulation.to_channel.
  rewrite (scope_vars_ignores_change pre post token change Hdata) in *.
  destruct (VcdSimulation.scope_vars (pre ++ post)) as [sv|]; simpl;
    [|reflexivity].
  apply for_each_ext_in. intros acc [module channels] Hscope.
  unfold VcdSimulation.scope_step.
  apply for_each_ext_in. intros acc' [channel_name vars] Hchannel.
  unfold VcdSimulation.channel_step.
  rewrite (to_events_without_token pre post token change vars Hdata Hm);
    [reflexivity|].
  intros var Hvar. apply (Hno sv var eq_refl).
  eapply declarations_In; eassumption.
Qed.

Lemma undeclared_change_ignored_witness :
  VcdSimulation.to_channel stray_change
  = VcdSimulation.to_channel
      [TokScope (ScopeDecl.mk "top");
       TokVar (VarDecl.mk 1 "!" "clk" NoIndex);
       TokOther KEndDefinitions "";
       TokChangeTime 0].
Proof.
  apply (undeclared_change_ignored
           [TokScope (ScopeDecl.mk "top");
            TokVar (VarDecl.mk 1 "!" "clk" NoIndex);
            TokOther KEndDefinitions "";
            TokChangeTime 0]
           []
           (TokChangeScalar (Change.mk "?" (VStr "1")))
           (Change.mk "?" (VStr "1"))).
  - reflexivity.
  - discriminate.
  - intros sv var Hsv. vm_compute in Hsv. injection Hsv as <-.
    intros [<-|[]]. discriminate.
Defined.

(** * Further properties of the program *)

(** ** [Channel]: lookups and segments *)

Section ChannelMore.
Import Channel.

Lemma scan_find (time : Z) (rest : list ChannelEvent.t) :
  forall pre,
    (if Nat.leb (List.length (pre ++ rest)) (scan rest time (List.length pre))
     then None
     else nth_error (pre ++ rest) (scan rest time (List.length pre)))
    = find (fun e => time <? ChannelEvent.time e) rest.
Proof.
  induction rest as [|e rest IH]; intros pre; simpl.
  - rewrite app_nil_r, Nat.leb_refl. reflexivity.
  - destruct (Z.leb_spec (ChannelEvent.time e) time) as [Hle|Hgt].
    + destruct (Z.ltb_spec time (ChannelEvent.time e)); [lia|].
      specialize (IH (pre ++ [e])).
      rewrite <- app_assoc in IH.
      replace (List.length (pre ++ [e])) with (S (List.length pre)) in IH
        by (rewrite length_app; simpl; lia).
      exact IH.
    + destruct (Z.ltb_spec time (ChannelEvent.time e)); [|lia].
      rewrite length_app. simpl.
      destruct (Nat.leb_spec (List.length pre + S (List.length rest))
                  (List.length pre)); [lia|].
      rewrite nth_error_app2, Nat.sub_diag by lia. reflexivity.
Qed.

(** The index loop of [next_event] is a search for the first event
    after [time]. *)
Lemma next_event_eq_find (self : t) (time : Z) :
  next_event self time
  = find (fun e => time <? ChannelEvent.time e) (events self).
Proof. exact (scan_find time (events self) []). Qed.

Lemma find_split {A : Type} (f : A -> bool) (l : list A) (x : A) :
  find f l = Some x ->
  exists pre post,
    l = pre ++ x :: post /\ f x = true /\ forall y, In y pre -> f y = false.
Proof.
  induction l as [|a l IH]; simpl; [discriminate|].
  destruct (f a) eqn:Hfa.
  - intros H; injection H as <-. exists [], l. repeat split; [assumption|].
    intros y [].
  - intros H. destruct (IH H) as (pre & post & -> & Hx & Hpre).
    exists (a :: pre), post. repeat split; [assumption|].
    intros y [<-|Hy]; [assumption | now apply Hpre].
Qed.

Lemma scan_ext (t1 t2 : Z) (rest : list ChannelEvent.t) (i : nat) :
  (forall e, In e rest ->
     (ChannelEvent.time e <=? t1) = (ChannelEvent.time e <=? t2)) ->
  scan rest t1 i = scan rest t2 i.
Proof.
  revert i. induction rest as [|e rest IH]; intros i Hext; [reflexivity|].
  simpl. rewrite <- (Hext e (or_introl eq_refl)).
  destruct (ChannelEvent.time e <=? t1); [|reflexivity].
  apply IH. intros e' He'. apply Hext. now right.
Qed.

(** Two times with the same events before them have the same value. *)
Lemma value_at_stable (self : t) (t1 t2 : Z) :
  t1 <= t2 ->
  (forall e, In e (events self) ->
     ~ (t1 < ChannelEvent.time e <= t2)) ->
  value_at self t1 = value_at self t2.
Proof.
  intros Hle Hnone. unfold value_at.
  rewrite (scan_ext t1 t2 (events self) 0); [reflexivity|].
  intros e He. specialize (Hnone e He).
  destruct (Z.leb_spec (ChannelEvent.time e) t1),
           (Z.leb_spec (ChannelEvent.time e) t2); try reflexivity; lia.
Qed.

(** On an ordered event list the value at the time of an event is the value
    of that event. *)
Lemma value_at_at_event (self : t) (e : ChannelEvent.t) :
  strictly_increasing (events self) ->
  In e (events self) ->
  value_at self (ChannelEvent.time e) = ChannelEvent.value e.
Proof.
  destruct self as [sz m n evs]; simpl. intros Hs.
  induction Hs as [|e0 rest Hrest IH Hall]; intros Hin; [destruct Hin|].
  rewrite value_at_cons. rewrite Forall_forall in Hall.
  destruct Hin as [->|Hin].
  - rewrite Z.leb_refl.
    assert (Hz : scan rest (ChannelEvent.time e) 0 = 0%nat).
    { apply scan_zero. destruct rest as [|r rest']; [exact I|].
      apply (Hall r). now left. }
    now rewrite Hz.
  - pose proof (Hall e Hin) as Hlt. simpl in Hlt.
    destruct (Z.leb_spec (ChannelEvent.time e0) (ChannelEvent.time e));
      [|lia].
    destruct (Nat.eqb_spec (scan rest (ChannelEvent.time e) 0) 0)
      as [Hz|_]; [|now apply IH].
    exfalso. apply scan_zero in Hz.
    destruct rest as [|r rest']; [destruct Hin|].
    destruct Hin as [->|Hin]; [lia|].
    inversion Hrest as [|? ? _ Hr]; subst. rewrite Forall_forall in Hr.
    specialize (Hr e Hin). simpl in Hr. lia.
Qed.

Lemma strictly_increasing_after (pre post : list ChannelEvent.t)
    (ev e : ChannelEvent.t) :
  strictly_increasing (pre ++ ev :: post) -> In e post ->
  ChannelEvent.time ev < ChannelEvent.time e.
Proof.
  unfold strictly_increasing.
  induction pre as [|a pre IH]; simpl; intros Hs He.
  - inversion Hs as [|? ? _ Hall]; subst. rewrite Forall_forall in Hall.
    now apply Hall.
  - inversion Hs; subst. now apply IH.
Qed.

(** On an ordered event list [next_event] returns the earliest of the
    events after [time]. *)
Lemma next_event_least (self : t) (time : Z) (ev e : ChannelEvent.t) :
  strictly_increasing (events self) ->
  next_event self time = Some ev ->
  In e (events self) -> time < ChannelEvent.time e ->
  ChannelEvent.time ev <= ChannelEvent.time e.
Proof.
  intros Hs Hnext He Hlt. rewrite next_event_eq_find in Hnext.
  destruct (find_split _ _ _ Hnext) as (pre & post & Heq & _ & Hpre).
  rewrite Heq in Hs, He. apply in_app_or in He.
  destruct He as [He|[<-|He]].
  - specialize (Hpre e He). simpl in Hpre. apply Z.ltb_ge in Hpre. lia.
  - lia.
  - pose proof (strictly_increasing_after _ _ _ _ Hs He). lia.
Qed.

Lemma total_duration_snoc (acc : list (Z * string)) (d : Z) (x : string) :
  total_duration (acc ++ [(d, x)]) = total_duration acc + d.
Proof.
  unfold total_duration. induction acc as [|a acc IH]; simpl in *; lia.
Qed.

Lemma segments_loop_positive (self : t) (end_ : Z) (fuel : nat) :
  forall acc v time segs,
    Forall (fun seg => 0 < fst seg) acc ->
    segments_loop fuel self end_ acc v time = Some segs ->
    Forall (fun seg => 0 < fst seg) segs.
Proof.
  induction fuel as [|fuel IH]; intros acc v time segs Hacc Hrun;
    [discriminate|].
  simpl in Hrun. destruct (Z.ltb_spec time end_) as [Hlt|Hge].
  - destruct (next_event self time) as [ev|] eqn:Hnext.
    + apply next_event_some in Hnext. destruct Hnext as [_ Hafter].
      apply IH in Hrun; [assumption|].
      apply Forall_app. split; [assumption|].
      constructor; [simpl; lia | constructor].
    + injection Hrun as <-. apply Forall_app. split; [assumption|].
      constructor; [simpl; lia | constructor].
  - now injection Hrun as <-.
Qed.

(** The time at which the loop of [to_tikz_line] ends. *)
Lemma segments_loop_close (self : t) (end_ : Z) (fuel : nat) :
  forall acc v time segs,
    time < end_ ->
    segments_loop fuel self end_ acc v time = Some segs ->
    total_duration segs = total_duration acc + (window_close self end_ - time).
Proof.
  unfold window_close.
  induction fuel as [|fuel IH]; intros acc v time segs Hlt Hrun;
    [discriminate|].
  simpl in Hrun. destruct (Z.ltb_spec time end_) as [_|]; [|lia].
  destruct (next_event self time) as [ev|] eqn:Hnext.
  - rewrite next_event_eq_find in Hnext.
    destruct (find_split _ _ _ Hnext) as (pre & post & Heq & Hev & Hpre).
    simpl in Hev. apply Z.ltb_lt in Hev.
    destruct (Z.lt_ge_cases (ChannelEvent.time ev) end_) as [Hin|Hout].
    + rewrite (IH _ _ _ _ Hin Hrun), total_duration_snoc. lia.
    + assert (Hfind : find (fun e => end_ <=? ChannelEvent.time e)
                        (events self) = Some ev).
      { rewrite Heq. clear Heq Hnext Hrun.
        induction pre as [|a pre IHp]; simpl.
        - destruct (Z.leb_spec end_ (ChannelEvent.time ev)); [reflexivity|lia].
        - pose proof (Hpre a (or_introl eq_refl)) as Ha. simpl in Ha.
          apply Z.ltb_ge in Ha.
          destruct (Z.leb_spec end_ (ChannelEvent.time a)); [lia|].
          apply IHp. intros y Hy. apply Hpre. now right. }
      rewrite Hfind.
      destruct fuel as [|fuel']; [discriminate|]. simpl in Hrun.
      destruct (Z.ltb_spec (ChannelEvent.time ev) end_); [lia|].
      injection Hrun as <-. rewrite total_duration_snoc. lia.
  - rewrite next_event_eq_find in Hnext.
    assert (Hfind : find (fun e => end_ <=? ChannelEvent.time e)
                      (events self) = None).
    { destruct (find _ (events self)) as [e|] eqn:Hf; [|reflexivity].
      apply find_some in Hf. destruct Hf as [He Hge]. apply Z.leb_le in Hge.
      pose proof (find_none _ _ Hnext e He) as Hno. simpl in Hno.
      apply Z.ltb_ge in Hno. lia. }
    rewrite Hfind. injection Hrun as <-. rewrite total_duration_snoc. lia.
Qed.

End ChannelMore.

(** X1. [next_event(time)] is [None] exactly when no event lies after
    [time]; otherwise it is the first event of the list, in list order, that
    lies strictly after [time]. *)
Theorem next_event_first_after (self : Channel.t) (time : Z) :
  match Channel.next_event self time with
  | None => forall e, In e (Channel.events self) -> ChannelEvent.time e <= time
  | Some ev =>
      exists pre post,
        Channel.events self = pre ++ ev :: post
        /\ time < ChannelEvent.time ev
        /\ forall e, In e pre -> ChannelEvent.time e <= time
  end.
Proof.
  rewrite next_event_eq_find.
  destruct (find _ (Channel.events self)) as [ev|] eqn:Hfind.
  - destruct (find_split _ _ _ Hfind) as (pre & post & Heq & Hev & Hpre).
    exists pre, post. simpl in Hev. apply Z.ltb_lt in Hev.
    repeat split; try assumption.
    intros e He. specialize (Hpre e He). simpl in Hpre.
    now apply Z.ltb_ge in Hpre.
  - intros e He. pose proof (find_none _ _ Hfind e He) as Hno. simpl in Hno.
    now apply Z.ltb_ge in Hno.
Qed.

(** X2. On a Channel with strictly increasing timestamps, looking up the
    value at the timestamp of an event gives the value of that event. *)
Theorem value_at_event_time (self : Channel.t) (e : ChannelEvent.t) :
  strictly_increasing (Channel.events self) ->
  In e (Channel.events self) ->
  Channel.value_at self (ChannelEvent.time e) = ChannelEvent.value e.
Proof. apply value_at_at_event. Qed.

Lemma value_at_event_time_witness :
  Channel.value_at clk 30 = "1".
Proof.
  apply (value_at_event_time clk (ChannelEvent.mk 30 "1")).
  - unfold strictly_increasing; simpl. repeat (constructor; simpl; try lia).
  - simpl. tauto.
Defined.

(** X3. [value_at] is constant on every stretch of time without an event:
    when no event has a timestamp in (t1, t2], the values at t1 and at t2
    are the same, whatever the order of the event list. *)
Theorem value_at_constant_between_events (self : Channel.t) (t1 t2 : Z) :
  t1 <= t2 ->
  (forall e, In e (Channel.events self) ->
     ~ (t1 < ChannelEvent.time e <= t2)) ->
  Channel.value_at self t1 = Channel.value_at self t2.
Proof. apply value_at_stable. Qed.

Lemma value_at_constant_between_events_witness :
  Channel.value_at enable 3 = Channel.value_at enable 29.
Proof.
  apply (value_at_constant_between_events enable 3 29); [lia|].
  simpl. intros e [<-|[<-|[]]]; simpl; lia.
Defined.

(** X4. [to_tikz_line] always returns, and every segment it emits has a
    strictly positive duration, for every event list and every window. *)
Theorem segments_positive_durations (self : Channel.t) (start end_ : Z) :
  exists segs,
    Channel.segments self start end_ = Some segs
    /\ Forall (fun seg => 0 < fst seg) segs.
Proof.
  destruct (segments_total self start end_) as [segs Hsegs].
  exists segs. split; [assumption|].
  eapply segments_loop_positive; [|exact Hsegs]. constructor.
Qed.

(** X5. For a window with start < end the durations of the segments sum to
    the distance from [start] to the first event of the list that is not
    before [end], and to end - start when there is no such event: the last
    segment is not cut at the end of the window. *)
Theorem segments_total_duration (self : Channel.t) (start end_ : Z) :
  start < end_ ->
  option_map total_duration (Channel.segments self start end_)
  = Some (window_close self end_ - start).
Proof.
  intros Hlt. destruct (segments_total self start end_) as [segs Hsegs].
  rewrite Hsegs. simpl. f_equal.
  rewrite (segments_loop_close self end_ _ _ _ _ _ Hlt Hsegs).
  reflexivity.
Qed.

Lemma segments_total_duration_witness :
  option_map total_duration (Channel.segments clk 5 15) = Some (20 - 5).
Proof.
  apply (segments_total_duration clk 5 15). lia.
Defined.

Section SegmentsExpand.
Import Channel.

Lemma expand_app (a b : list (Z * string)) :
  expand (a ++ b) = expand a ++ expand b.
Proof. apply flat_map_app. Qed.

Lemma expand_length (segs : list (Z * string)) :
  Forall (fun seg => 0 < fst seg) segs ->
  Z.of_nat (List.length (expand segs)) = total_duration segs.
Proof.
  unfold expand, total_duration.
  induction 1 as [|[d x] segs Hd _ IH]; simpl; [reflexivity|].
  rewrite length_app, repeat_length, Nat2Z.inj_add, IH. simpl in Hd. lia.
Qed.

(** One more segment, of the value that holds from [time] to [close],
    extends the stretch on which the segments agree with [value_at]. *)
Lemma expand_snoc_cover (self : t) (start time close : Z)
    (acc : list (Z * string)) (v : string) :
  Forall (fun seg => 0 < fst seg) acc ->
  total_duration acc = time - start ->
  time < close ->
  (forall u, start <= u < time ->
     nth_error (expand acc) (Z.to_nat (u - start)) = Some (value_at self u)) ->
  (forall u, time <= u < close -> value_at self u = v) ->
  forall u, start <= u < close ->
    nth_error (expand (acc ++ [(close - time, v)])) (Z.to_nat (u - start))
    = Some (value_at self u).
Proof.
  intros Hpos Htotal Hlt Hcover Hflat u Hu.
  pose proof (expand_length acc Hpos) as Hlen.
  rewrite expand_app. destruct (Z.lt_ge_cases u time) as [Hin|Hout].
  - rewrite nth_error_app1 by lia. apply Hcover. lia.
  - rewrite nth_error_app2 by lia.
    replace (expand [(close - time, v)])
      with (repeat v (Z.to_nat (close - time)))
      by (unfold expand; simpl; now rewrite app_nil_r).
    rewrite nth_error_repeat by lia.
    f_equal. symmetry. apply Hflat. lia.
Qed.

Lemma segments_loop_expand (self : t) (start end_ : Z) (fuel : nat) :
  strictly_increasing (events self) ->
  forall acc v time segs,
    v = value_at self time ->
    Forall (fun seg => 0 < fst seg) acc ->
    total_duration acc = time - start ->
    (forall u, start <= u < time ->
       nth_error (expand acc) (Z.to_nat (u - start))
       = Some (value_at self u)) ->
    segments_loop fuel self end_ acc v time = Some segs ->
    forall u, start <= u < start + total_duration segs ->
      nth_error (expand segs) (Z.to_nat (u - start)) = Some (value_at self u).
Proof.
  intros Hs.
  induction fuel as [|fuel IH];
    intros acc v time segs Hv Hpos Htotal Hcover Hrun u Hu; [discriminate|].
  simpl in Hrun. destruct (Z.ltb_spec time end_) as [Hlt|Hge].
  - destruct (next_event self time) as [ev|] eqn:Hnext.
    + pose proof (next_event_some _ _ _ Hnext) as [Hin Hafter].
      refine (IH _ _ _ _ _ _ _ _ Hrun u Hu).
      * symmetry. now apply value_at_at_event.
      * apply Forall_app. split; [assumption|].
        constructor; [simpl; lia | constructor].
      * rewrite total_duration_snoc. lia.
      * apply expand_snoc_cover; try assumption.
        intros w Hw. subst v. symmetry. apply value_at_stable; [lia|].
        intros e He [Hlo Hhi].
        pose proof (next_event_least _ _ _ _ Hs Hnext He Hlo). lia.
    + injection Hrun as <-. rewrite total_duration_snoc in Hu.
      apply expand_snoc_cover; try assumption; [|lia].
      intros w Hw. subst v. symmetry. apply value_at_stable; [lia|].
      intros e He [Hlo Hhi]. rewrite next_event_eq_find in Hnext.
      pose proof (find_none _ _ Hnext e He) as Hno. simpl in Hno.
      apply Z.ltb_ge in Hno. lia.
  - injection Hrun as <-. apply Hcover. lia.
Qed.

End SegmentsExpand.

(** X6. On a Channel with strictly increasing timestamps and a window with
    start < end, the segments cover at least the window, and written out
    one symbol per time unit they give [value_at(t)] at every t from
    [start] to the end of the last segment, so at every t of the window
    [start, end). *)
Theorem segments_expand_to_value_at (self : Channel.t) (start end_ : Z) :
  strictly_increasing (Channel.events self) ->
  start < end_ ->
  exists segs,
    Channel.segments self start end_ = Some segs
    /\ end_ - start <= total_duration segs
    /\ forall t, start <= t < start + total_duration segs ->
         nth_error (expand segs) (Z.to_nat (t - start))
         = Some (Channel.value_at self t).
Proof.
  intros Hs Hlt. destruct (segments_total self start end_) as [segs Hsegs].
  exists segs. split; [assumption|]. split.
  - rewrite (segments_loop_close self end_ _ _ _ _ _ Hlt Hsegs).
    unfold total_duration, window_close. simpl.
    destruct (find _ (Channel.events self)) as [e|] eqn:Hf; [|lia].
    apply find_some in Hf. destruct Hf as [_ Hge]. apply Z.leb_le in Hge. lia.
  - eapply (segments_loop_expand self start end_ _ Hs); try exact Hsegs.
    + reflexivity.
    + constructor.
    + unfold total_duration. simpl. lia.
    + intros u Hu. lia.
Qed.

Lemma segments_expand_to_value_at_witness :
  exists segs,
    Channel.segments clk 5 35 = Some segs
    /\ 35 - 5 <= total_duration segs
    /\ forall t, 5 <= t < 5 + total_duration segs ->
         nth_error (expand segs) (Z.to_nat (t - 5))
         = Some (Channel.value_at clk t).
Proof.
  apply (segments_expand_to_value_at clk 5 35); [|lia].
  unfold strictly_increasing; simpl. repeat (constructor; simpl; try lia).
Defined.

(** ** [Simulation.to_tikz] *)

Section ToTikzFacts.
Import Simulation.

Lemma tikz_rows_lines (start end_ : Z) (channels : list Channel.t) :
  forall tikz_table,
    exists lines,
      tikz_rows channels start end_ tikz_table = Some (tikz_table ++ lines)
      /\ Forall2
           (fun c line =>
              option_map (append tab) (Channel.to_tikz_line c start end_)
              = Some line)
           channels lines.
Proof.
  induction channels as [|c channels IH]; intros tikz_table;
    cbn [tikz_rows].
  - exists []. rewrite app_nil_r. split; constructor.
  - destruct (to_tikz_line_total c start end_) as [line Hline].
    rewrite Hline.
    destruct (IH (tikz_table ++ [(tab ++ line)%string])) as (lines & -> & Hall).
    exists ((tab ++ line)%string :: lines). rewrite <- app_assoc. simpl.
    split; [reflexivity|]. constructor; [|assumption].
    now rewrite Hline.
Qed.

Lemma name_in_iff (names : list string) (c : Channel.t) :
  name_in names c = true <-> In (Channel.name c) names.
Proof.
  unfold name_in. rewrite existsb_exists. split.
  - intros (n & Hn & Heq). apply String.eqb_eq in Heq. now subst.
  - intros Hin. exists (Channel.name c). split; [assumption|].
    apply String.eqb_refl.
Qed.

Lemma selected_filter (self : t) (channel_names : option (list string))
    (f : Channel.t -> bool) :
  (forall c, In c (channels self) ->
     (f c = true <-> is_selected channel_names (Channel.name c))) ->
  selected self channel_names = filter f (channels self).
Proof.
  intros Hf. destruct channel_names as [names|]; simpl in *.
  - apply filter_ext_in. intros c Hc. apply eq_true_iff_eq.
    rewrite name_in_iff. symmetry. now apply Hf.
  - induction (channels self) as [|c l IH]; [reflexivity|]. simpl.
    destruct (f c) eqn:Hfc.
    + f_equal. apply IH. intros c' Hc'. apply Hf. now right.
    + exfalso. assert (H : f c = true) by (apply Hf; [now left | exact I]).
      congruence.
Qed.

End ToTikzFacts.

(** X7. [to_tikz] always returns.  Its text is the begin marker, one line
    per selected channel, in the order of the Simulation, made of a tab and
    the line of [to_tikz_line], and the end marker, joined by newlines; the
    selected channels are all of them without a filter, those whose name is
    in the filter otherwise. *)
Theorem to_tikz_one_line_per_channel
    (self : Simulation.t) (start end_ : Z)
    (channel_names : option (list string)) :
  exists lines,
    Simulation.to_tikz self start end_ channel_names
    = Some (str_join Simulation.newline
              ("\begin{{tikztimingtable}}"
                 :: lines ++ ["\end{{tikztimingtable}}"]))
    /\ Forall2
         (fun c line =>
            option_map (append Simulation.tab)
              (Channel.to_tikz_line c start end_) = Some line)
         (selected self channel_names) lines.
Proof.
  unfold Simulation.to_tikz.
  destruct (tikz_rows_lines start end_ (selected self channel_names)
              ["\begin{{tikztimingtable}}"]) as (lines & Hrows & Hall).
  exists lines. split; [|assumption].
  unfold selected in Hrows. rewrite Hrows. reflexivity.
Qed.

(** X8. The output of [to_tikz] depends on the filter only through the
    channels it selects: two filters under which the same channels of the
    Simulation are selected (names in another order, repeated, or naming no
    channel; no filter against one that holds every name) give the same
    text. *)
Theorem to_tikz_filter_membership
    (self : Simulation.t) (start end_ : Z)
    (names1 names2 : option (list string)) :
  (forall c, In c (Simulation.channels self) ->
     (is_selected names1 (Channel.name c)
      <-> is_selected names2 (Channel.name c))) ->
  Simulation.to_tikz self start end_ names1
  = Simulation.to_tikz self start end_ names2.
Proof.
  intros Hsame.
  assert (Hsel : selected self names1 = selected self names2).
  { destruct names2 as [n2|].
    - apply selected_filter. intros c Hc. rewrite name_in_iff.
      symmetry. now apply Hsame.
    - rewrite (selected_filter self names1 (fun _ => true)).
      + simpl. clear Hsame.
        induction (Simulation.channels self) as [|c l IH];
          [reflexivity|]. simpl. now rewrite IH.
      + intros c Hc. split; [|reflexivity]. intros _. now apply Hsame. }
  unfold Simulation.to_tikz. unfold selected in Hsel. now rewrite Hsel.
Qed.

Lemma to_tikz_filter_membership_witness :
  Simulation.to_tikz (Simulation.mk [clk; enable]) 0 50
    (Some ["reset"; "enable"; "clock"; "enable"])
  = Simulation.to_tikz (Simulation.mk [clk; enable]) 0 50 None.
Proof.
  apply (to_tikz_filter_membership (Simulation.mk [clk; enable]) 0 50
           (Some ["reset"; "enable"; "clock"; "enable"]) None).
  simpl. intros c [<-|[<-|[]]]; simpl; tauto.
Defined.

(** ** [VcdSimulation.timescale] *)

Lemma list_first_filter {A : Type} (f : A -> bool) (l : list A) :
  match list_first (filter f l) with
  | Ok x =>
      exists pre post,
        l = pre ++ x :: post /\ f x = true
        /\ forall y, In y pre -> f y = false
  | Raise e => e = IndexError /\ forall y, In y l -> f y = false
  end.
Proof.
  induction l as [|a l IH]; cbn [filter].
  - split; [reflexivity | intros y []].
  - destruct (f a) eqn:Hfa; cbn [list_first].
    + exists [], l. repeat split; [assumption | intros y []].
    + destruct (list_first (filter f l)) as [x|e].
      * destruct IH as (pre & post & -> & Hx & Hpre).
        exists (a :: pre), post. repeat split; [assumption|].
        intros y [<-|Hy]; auto.
      * destruct IH as [-> Hall]. split; [reflexivity|].
        intros y [<-|Hy]; auto.
Qed.

Lemma TokenKind_eqb_eq (a b : TokenKind) : TokenKind_eqb a b = true <-> a = b.
Proof. destruct a, b; simpl; split; intros H; try reflexivity; discriminate. Qed.

(** X9. [timescale] raises IndexError exactly when the token sequence holds
    no TIMESCALE token, and otherwise returns the data of the first one,
    whatever follows it. *)
Theorem timescale_first_token (tokens : list Token) :
  match VcdSimulation.timescale tokens with
  | Ok data =>
      exists pre post,
        tokens = pre ++ TokOther KTimescale data :: post
        /\ forall token, In token pre -> kind token <> TIMESCALE
  | Raise e =>
      e = IndexError
      /\ forall token, In token tokens -> kind token <> TIMESCALE
  end.
Proof.
  unfold VcdSimulation.timescale, VcdSimulation._filtered_tokens.
  pose proof (list_first_filter
                (fun token => TokenKind_eqb TIMESCALE (kind token)) tokens)
    as Hfirst.
  assert (Hno : forall token : Token,
             TokenKind_eqb TIMESCALE (kind token) = false ->
             kind token <> TIMESCALE).
  { intros token Hk Heq. rewrite Heq in Hk. discriminate. }
  destruct (list_first _) as [first|e]; cbn [bind].
  - destruct Hfirst as (pre & post & -> & Hk & Hpre).
    apply TokenKind_eqb_eq in Hk.
    destruct first as [d|d|t|c|c|c|c|k text]; try discriminate.
    destruct k; try discriminate.
    exists pre, post. split; [reflexivity|].
    intros token Htoken. apply Hno. now apply Hpre.
  - destruct Hfirst as [-> Hall]. split; [reflexivity|].
    intros token Htoken. apply Hno. now apply Hall.
Qed.

(** ** The Declaration Index: [scope_vars] *)

Section DictMore.
Context {K V : Type}.
Variable eqb : K -> K -> bool.
Hypothesis eqb_eq : forall a b, eqb a b = true <-> a = b.

Lemma dict_set_NoDup_keys (k : K) (v : V) (d : list (K * V)) :
  NoDup (map fst d) -> NoDup (map fst (dict_set eqb k v d)).
Proof.
  intros Hnd. rewrite (dict_set_keys eqb). unfold dict_mem.
  destruct (dict_get eqb k d) eqn:Hget; [assumption|].
  apply (dict_get_None eqb eqb_eq) in Hget.
  apply NoDup_rev in Hnd. rewrite <- (rev_involutive (map fst d ++ [k])).
  apply NoDup_rev. rewrite rev_app_distr. simpl. constructor; [|assumption].
  now rewrite <- in_rev.
Qed.

(** What a dictionary holds after an assignment. *)
Lemma dict_set_In (k k0 : K) (v v0 : V) (d : list (K * V)) :
  In (k, v) (dict_set eqb k0 v0 d) ->
  (k = k0 /\ v = v0) \/ In (k, v) d.
Proof.
  induction d as [|[k' v'] d IH]; simpl.
  - intros [H|[]]. injection H as <- <-. now left.
  - destruct (eqb k0 k') eqn:E; simpl.
    + apply eqb_eq in E. subst k'.
      intros [H|H]; [injection H as <- <-; now left | right; now right].
    + intros [H|H]; [right; now left|].
      destruct (IH H) as [Heq|Hin]; [now left | right; now right].
Qed.

Lemma dict_set_In_other (k k0 : K) (v v0 : V) (d : list (K * V)) :
  NoDup (map fst d) ->
  In (k, v) (dict_set eqb k0 v0 d) ->
  (k = k0 /\ v = v0) \/ (k <> k0 /\ In (k, v) d).
Proof.
  induction d as [|[k' v'] d IH]; simpl; intros Hnd.
  - intros [H|[]]. injection H as <- <-. now left.
  - inversion Hnd as [|? ? Hnotin Hnd']; subst.
    destruct (eqb k0 k') eqn:E; simpl.
    + apply eqb_eq in E. subst k'.
      intros [H|H]; [injection H as <- <-; now left|].
      right. split; [|now right]. intros ->. apply Hnotin.
      change k0 with (fst (k0, v)). now apply in_map.
    + intros [H|H].
      * injection H as <- <-. right. split; [|now left].
        intros ->. rewrite (eqb_refl_true eqb eqb_eq) in E. discriminate.
      * destruct (IH Hnd' H) as [Heq|[Hne Hin]]; [now left|].
        right. split; [assumption | now right].
Qed.

Lemma dict_set_nonempty (k : K) (v : V) (d : list (K * V)) :
  dict_set eqb k v d <> [].
Proof.
  destruct d as [|[k' v'] d]; simpl; [discriminate|].
  destruct (eqb k k'); discriminate.
Qed.

(** A new key goes to the end; the last key is assigned in place. *)
Lemma dict_set_fresh (k : K) (v : V) (d : list (K * V)) :
  ~ In k (map fst d) -> dict_set eqb k v d = d ++ [(k, v)].
Proof.
  induction d as [|[k' v'] d IH]; simpl; intros Hnot; [reflexivity|].
  rewrite (eqb_neq_false eqb eqb_eq) by (intros ->; apply Hnot; now left).
  rewrite IH; [reflexivity|]. intros H. apply Hnot. now right.
Qed.

Lemma dict_set_last (k : K) (v v0 : V) (d : list (K * V)) :
  ~ In k (map fst d) ->
  dict_set eqb k v (d ++ [(k, v0)]) = d ++ [(k, v)].
Proof.
  induction d as [|[k' v'] d IH]; simpl; intros Hnot.
  - now rewrite (eqb_refl_true eqb eqb_eq).
  - rewrite (eqb_neq_false eqb eqb_eq) by (intros ->; apply Hnot; now left).
    rewrite IH; [reflexivity|]. intros H. apply Hnot. now right.
Qed.

Lemma dict_get_last (k : K) (v0 : V) (d : list (K * V)) :
  ~ In k (map fst d) -> dict_get eqb k (d ++ [(k, v0)]) = Some v0.
Proof.
  induction d as [|[k' v'] d IH]; simpl; intros Hnot.
  - now rewrite (eqb_refl_true eqb eqb_eq).
  - rewrite (eqb_neq_false eqb eqb_eq) by (intros ->; apply Hnot; now left).
    apply IH. intros H. apply Hnot. now right.
Qed.

End DictMore.

Lemma BitIndex_eqb_eq (a b : BitIndex) : BitIndex_eqb a b = true <-> a = b.
Proof.
  destruct a, b; simpl; split; intros H; try discriminate; try reflexivity.
  - apply Z.eqb_eq in H. now subst.
  - injection H as ->. apply Z.eqb_refl.
  - apply andb_true_iff in H. destruct H as [H1 H2].
    apply Z.eqb_eq in H1, H2. now subst.
  - injection H as -> ->. now rewrite !Z.eqb_refl.
Qed.

Lemma for_each_filter {A S : Type} (body : S -> A -> Exc S) (f : A -> bool)
    (xs : list A) :
  (forall s x, f x = false -> body s x = Ok s) ->
  forall s, for_each body s (filter f xs) = for_each body s xs.
Proof.
  intros Hskip. induction xs as [|x xs IH]; intros s; [reflexivity|].
  cbn [filter]. destruct (f x) eqn:Hfx; rewrite !for_each_cons.
  - destruct (body s x); cbn [bind]; [apply IH | reflexivity].
  - rewrite (Hskip s x Hfx). cbn [bind]. apply IH.
Qed.

Section ScopeVarsFacts.
Import VcdSimulation.

Lemma scope_step_scope (st : option string * ScopeVars) (d : ScopeDecl.t) :
  scope_vars_step st (TokScope d) =
  Ok (Some (ScopeDecl.ident d), dict_set String.eqb (ScopeDecl.ident d) [] (snd st)).
Proof. now destruct st. Qed.

Lemma scope_step_other (st : option string * ScopeVars) (token : Token) :
  is_declaration token = false -> scope_vars_step st token = Ok st.
Proof.
  destruct st as [scope acc].
  destruct token as [d|d|t|c|c|c|c|k text]; try discriminate; try reflexivity.
  now destruct k.
Qed.

Lemma scope_step_var (scope : string) (acc : ScopeVars) (d : VarDecl.t) :
  scope_vars_step (Some scope, acc) (TokVar d) =
  (channels <- dict_getitem String.eqb scope acc ;;
   channels <- with_var d channels ;;
   Ok (Some scope, dict_set String.eqb scope channels acc)).
Proof.
  unfold scope_vars_step, with_var. cbn [kind TokenKind_eqb].
  destruct (dict_getitem String.eqb scope acc) as [channels|]; cbn [bind];
    [|reflexivity].
  destruct (dict_getitem String.eqb (VarDecl.reference d) _); reflexivity.
Qed.

(** Filing a declaration never raises. *)
Lemma with_var_total (d : VarDecl.t)
    (channels : Dict string (Dict BitIndex VarDecl.t)) :
  exists vars,
    with_var d channels =
    Ok (dict_set String.eqb (VarDecl.reference d)
          (dict_set BitIndex_eqb (VarDecl.bit_index d) d vars)
          (if negb (dict_mem String.eqb (VarDecl.reference d) channels)
           then dict_set String.eqb (VarDecl.reference d) [] channels
           else channels))
    /\ (vars = [] \/ In (VarDecl.reference d, vars) channels).
Proof.
  unfold with_var, dict_mem, dict_getitem.
  destruct (dict_get String.eqb (VarDecl.reference d) channels) as [vars|]
    eqn:Hget; cbn [negb].
  - rewrite Hget. cbn [bind]. exists vars. split; [reflexivity|]. right.
    now apply (dict_get_In String.eqb String.eqb_eq).
  - rewrite (dict_get_set_same String.eqb String.eqb_eq). cbn [bind].
    exists []. split; [reflexivity | now left].
Qed.

Lemma scope_run_some (tokens : list Token) :
  forall scope acc,
    dict_get String.eqb scope acc <> None ->
    exists scope' acc',
      for_each scope_vars_step (Some scope, acc) tokens = Ok (Some scope', acc')
      /\ dict_get String.eqb scope' acc' <> None.
Proof.
  induction tokens as [|token rest IH]; intros scope acc Hkey;
    [simpl; eauto | rewrite for_each_cons].
  destruct token as [d|d|t|c|c|c|c|k text];
    try (rewrite scope_step_other by (try reflexivity; now destruct k);
         cbn [bind]; now apply IH).
  - rewrite scope_step_scope. cbn [bind snd]. apply IH.
    rewrite (dict_get_set_same String.eqb String.eqb_eq). discriminate.
  - rewrite scope_step_var. unfold dict_getitem at 1.
    destruct (dict_get String.eqb scope acc) as [channels|];
      [|contradiction]. cbn [bind].
    destruct (with_var_total d channels) as (vars & -> & _). cbn [bind].
    apply IH. rewrite (dict_get_set_same String.eqb String.eqb_eq).
    discriminate.
Qed.

Lemma scope_run_none (tokens : list Token) (acc : ScopeVars) :
  match for_each scope_vars_step (None, acc) tokens with
  | Ok _ => forall d, ~ In (TokVar d) (until_scope tokens)
  | Raise e =>
      e = UnboundLocalError /\ exists d, In (TokVar d) (until_scope tokens)
  end.
Proof.
  induction tokens as [|token rest IH]; [intros d [] | rewrite for_each_cons].
  destruct token as [d|d|t|c|c|c|c|k text];
    try (rewrite scope_step_other by (try reflexivity; now destruct k);
         cbn [bind until_scope];
         destruct (for_each scope_vars_step (None, acc) rest);
         [intros d0 [H|H]; [discriminate | now apply (IH d0)]
         |destruct IH as [-> [d0 H]]; split; [reflexivity|];
          exists d0; now right]).
  - rewrite scope_step_scope. cbn [bind snd until_scope].
    destruct (scope_run_some rest (ScopeDecl.ident d)
                (dict_set String.eqb (ScopeDecl.ident d) [] acc))
      as (s' & acc' & -> & _).
    + rewrite (dict_get_set_same String.eqb String.eqb_eq). discriminate.
    + intros d0 [].
  - cbn. split; [reflexivity|]. exists d. now left.
Qed.

End ScopeVarsFacts.

(** X10. [scope_vars] raises exactly when a variable declaration comes
    before the first scope declaration, and the exception is then
    UnboundLocalError; on every other token sequence it returns. *)
Theorem scope_vars_raises_iff_var_before_scope (tokens : list Token) :
  match VcdSimulation.scope_vars tokens with
  | Ok _ => forall d, ~ In (TokVar d) (until_scope tokens)
  | Raise e =>
      e = UnboundLocalError /\ exists d, In (TokVar d) (until_scope tokens)
  end.
Proof.
  unfold VcdSimulation.scope_vars.
  pose proof (scope_run_none tokens []) as H.
  destruct (for_each VcdSimulation.scope_vars_step (None, []) tokens)
    as [[scope acc]|e]; exact H.
Qed.

(** X11. [scope_vars] looks at the SCOPE and VAR tokens only: it gives the
    same result, or the same exception, on the token sequence with every
    other token taken out.  An UPSCOPE token in particular changes nothing:
    a declaration after it is still filed under the scope opened last. *)
Theorem scope_vars_only_declarations (tokens : list Token) :
  VcdSimulation.scope_vars tokens
  = VcdSimulation.scope_vars (filter is_declaration tokens).
Proof.
  unfold VcdSimulation.scope_vars. f_equal. symmetry.
  apply for_each_filter. intros s x. apply scope_step_other.
Qed.

Section IndexInvariant.
Import VcdSimulation.

Lemma with_var_ok (d : VarDecl.t)
    (channels channels' : Dict string (Dict BitIndex VarDecl.t)) :
  scope_ok channels -> with_var d channels = Ok channels' ->
  scope_ok channels'.
Proof.
  intros [Hnd Hgroups] Hwith.
  destruct (with_var_total d channels) as (vars & Heq & Hvars).
  rewrite Heq in Hwith. injection Hwith as <-.
  set (base := if negb (dict_mem String.eqb (VarDecl.reference d) channels)
               then dict_set String.eqb (VarDecl.reference d) [] channels
               else channels).
  assert (Hbase : NoDup (map fst base)).
  { unfold base. destruct (negb _); [|assumption].
    now apply (dict_set_NoDup_keys String.eqb String.eqb_eq). }
  assert (Hold : vars = [] \/ group_ok (VarDecl.reference d) vars).
  { destruct Hvars as [->|Hin]; [now left | right; now apply Hgroups]. }
  split.
  - now apply (dict_set_NoDup_keys String.eqb String.eqb_eq).
  - intros name vs Hin.
    apply (dict_set_In_other String.eqb String.eqb_eq) in Hin;
      [|assumption].
    destruct Hin as [[-> ->]|[Hne Hin]].
    + split; [apply dict_set_nonempty|]. split.
      * apply (dict_set_NoDup_keys BitIndex_eqb BitIndex_eqb_eq).
        destruct Hold as [->|(_ & Hk & _)]; [constructor | exact Hk].
      * intros bit var Hbv.
        apply (dict_set_In BitIndex_eqb BitIndex_eqb_eq) in Hbv.
        destruct Hbv as [[-> ->]|Hbv]; [now split|].
        destruct Hold as [->|(_ & _ & Hfiled)]; [destruct Hbv|].
        now apply Hfiled.
    + apply Hgroups. unfold base in Hin. destruct (negb _); [|assumption].
      apply (dict_set_In String.eqb String.eqb_eq) in Hin.
      destruct Hin as [[Heq' _]|Hin]; [contradiction | assumption].
Qed.

Lemma scope_run_ok (tokens : list Token) :
  forall scope acc scope' acc',
    NoDup (map fst acc) ->
    (forall module channels, In (module, channels) acc -> scope_ok channels) ->
    for_each scope_vars_step (scope, acc) tokens = Ok (scope', acc') ->
    NoDup (map fst acc')
    /\ forall module channels, In (module, channels) acc' -> scope_ok channels.
Proof.
  induction tokens as [|token rest IH];
    intros scope acc scope' acc' Hnd Hall Hrun.
  - simpl in Hrun. injection Hrun as <- <-. now split.
  - rewrite for_each_cons in Hrun.
    destruct token as [d|d|t|c|c|c|c|k text];
      try (rewrite scope_step_other in Hrun
             by (try reflexivity; now destruct k);
           cbn [bind] in Hrun; now apply (IH _ _ _ _ Hnd Hall Hrun)).
    + rewrite scope_step_scope in Hrun. cbn [bind snd] in Hrun.
      apply (IH _ _ _ _) in Hrun; [assumption| |].
      * now apply (dict_set_NoDup_keys String.eqb String.eqb_eq).
      * intros module channels Hin.
        apply (dict_set_In String.eqb String.eqb_eq) in Hin.
        destruct Hin as [[_ ->]|Hin]; [|now apply (Hall module)].
        split; [constructor | intros name vars []].
    + destruct scope as [scope|]; [|discriminate].
      rewrite scope_step_var in Hrun. unfold dict_getitem at 1 in Hrun.
      destruct (dict_get String.eqb scope acc) as [channels|] eqn:Hget;
        [|discriminate]. cbn [bind] in Hrun.
      destruct (with_var d channels) as [channels'|] eqn:Hwith;
        [|discriminate]. cbn [bind] in Hrun.
      apply (IH _ _ _ _) in Hrun; [assumption| |].
      * now apply (dict_set_NoDup_keys String.eqb String.eqb_eq).
      * intros module chans Hin.
        apply (dict_set_In String.eqb String.eqb_eq) in Hin.
        destruct Hin as [[_ ->]|Hin]; [|now apply (Hall module)].
        apply (with_var_ok d channels); [|assumption].
        apply (Hall scope). now apply (dict_get_In String.eqb String.eqb_eq).
Qed.

Lemma scope_declarations_set (scope module : string)
    (channels : Dict string (Dict BitIndex VarDecl.t)) (acc : ScopeVars) :
  scope_declarations (dict_set String.eqb module channels acc) scope =
  if String.eqb scope module
  then flat_map (fun channel => dict_values (snd channel)) channels
  else scope_declarations acc scope.
Proof.
  unfold scope_declarations.
  destruct (String.eqb_spec scope module) as [->|Hne].
  - now rewrite (dict_get_set_same String.eqb String.eqb_eq).
  - now rewrite (dict_get_set_other String.eqb String.eqb_eq).
Qed.

(** Where the declarations of a scope come from: they were there before,
    or they are declared by the tokens that the loop ran over. *)
Lemma scope_run_origin (module : string) (tokens : list Token) :
  forall scope acc scope' acc' var,
    for_each scope_vars_step (scope, acc) tokens = Ok (scope', acc') ->
    In var (scope_declarations acc' module) ->
    In var (scope_declarations acc module) \/ In (TokVar var) tokens.
Proof.
  induction tokens as [|token rest IH];
    intros scope acc scope' acc' var Hrun Hvar.
  - simpl in Hrun. injection Hrun as <- <-. now left.
  - rewrite for_each_cons in Hrun.
    destruct token as [d|d|t|c|c|c|c|k text];
      try (rewrite scope_step_other in Hrun
             by (try reflexivity; now destruct k);
           cbn [bind] in Hrun;
           destruct (IH _ _ _ _ _ Hrun Hvar) as [H|H];
           [now left | right; now right]).
    + rewrite scope_step_scope in Hrun. cbn [bind snd] in Hrun.
      destruct (IH _ _ _ _ _ Hrun Hvar) as [H|H]; [|right; now right].
      rewrite scope_declarations_set in H.
      destruct (String.eqb module (ScopeDecl.ident d)); [destruct H|now left].
    + destruct scope as [scope|]; [|discriminate].
      rewrite scope_step_var in Hrun. unfold dict_getitem at 1 in Hrun.
      destruct (dict_get String.eqb scope acc) as [channels|] eqn:Hget;
        [|discriminate]. cbn [bind] in Hrun.
      destruct (with_var_total d channels) as (vars & Heq & Hvars).
      rewrite Heq in Hrun. cbn [bind] in Hrun.
      destruct (IH _ _ _ _ _ Hrun Hvar) as [H|H]; [|right; now right].
      rewrite scope_declarations_set in H.
      destruct (String.eqb_spec module scope) as [->|Hne]; [|now left].
      apply in_flat_map in H. destruct H as ([name vs] & Hin & Hv).
      simpl in Hv.
      assert (Hchan : forall n v0, In (n, v0) channels ->
                        In var (dict_values v0) ->
                        In var (scope_declarations acc scope)).
      { intros n v0 Hn Hv0. unfold scope_declarations. rewrite Hget.
        apply in_flat_map. exists (n, v0). now split. }
      apply (dict_set_In String.eqb String.eqb_eq) in Hin.
      destruct Hin as [[-> ->]|Hin].
      * unfold dict_values in Hv. apply in_map_iff in Hv.
        destruct Hv as ([bit v0] & <- & Hbv). simpl.
        apply (dict_set_In BitIndex_eqb BitIndex_eqb_eq) in Hbv.
        destruct Hbv as [[_ ->]|Hbv]; [right; now left|].
        left. destruct Hvars as [->|Hold]; [destruct Hbv|].
        apply (Hchan _ _ Hold). unfold dict_values.
        change v0 with (snd (bit, v0)). now apply in_map.
      * left. destruct (negb _).
        -- apply (dict_set_In String.eqb String.eqb_eq) in Hin.
           destruct Hin as [[_ ->]|Hin]; [destruct Hv|].
           now apply (Hchan name vs).
        -- now apply (Hchan name vs).
Qed.

End IndexInvariant.

(** X12. In the Declaration Index that [scope_vars] returns the scope names
    are pairwise different, and so are the reference names within a scope
    and the bit-indices within a group; no group is empty; every
    declaration is filed under its own reference name and bit-index. *)
Theorem scope_vars_index_well_formed
    (tokens : list Token)
    (sv : Dict string (Dict string (Dict BitIndex VarDecl.t))) :
  VcdSimulation.scope_vars tokens = Ok sv ->
  NoDup (dict_keys sv)
  /\ forall module channels, In (module, channels) sv -> scope_ok channels.
Proof.
  unfold VcdSimulation.scope_vars. intros Hrun.
  destruct (for_each VcdSimulation.scope_vars_step (None, []) tokens)
    as [[scope acc]|] eqn:Hloop; [|discriminate].
  cbn [bind] in Hrun. injection Hrun as <-.
  apply (scope_run_ok tokens None [] scope acc); [constructor| |exact Hloop].
  intros module channels [].
Qed.

Lemma scope_vars_index_well_formed_witness :
  NoDup (dict_keys [("top", [("data", [(Idx 1, bit1); (Idx 0, bit0)])])])
  /\ forall module channels,
       In (module, channels) [("top", [("data", [(Idx 1, bit1); (Idx 0, bit0)])])] ->
       scope_ok channels.
Proof.
  apply (scope_vars_index_well_formed scenario_e). reflexivity.
Defined.

(** X13. A scope declaration starts its scope afresh: of the declarations
    filed under a scope name in the Declaration Index, all are declared
    after the last scope declaration of that name.  The variables of an
    earlier scope of the same name, such as a second instance [u1] below
    another parent, are dropped from the index. *)
Theorem scope_redeclared_drops_earlier_variables
    (pre post : list Token) (scope : ScopeDecl.t)
    (sv : Dict string (Dict string (Dict BitIndex VarDecl.t)))
    (var : VarDecl.t) :
  VcdSimulation.scope_vars (pre ++ TokScope scope :: post) = Ok sv ->
  In var (scope_declarations sv (ScopeDecl.ident scope)) ->
  In (TokVar var) post.
Proof.
  unfold VcdSimulation.scope_vars. rewrite for_each_app.
  intros Hrun Hvar.
  destruct (for_each VcdSimulation.scope_vars_step (None, []) pre)
    as [[scope0 acc0]|]; [|discriminate].
  cbn [bind] in Hrun. rewrite for_each_cons, scope_step_scope in Hrun.
  cbn [bind snd] in Hrun.
  destruct (for_each VcdSimulation.scope_vars_step _ post)
    as [[scope1 acc1]|] eqn:Hpost; [|discriminate].
  cbn [bind] in Hrun. injection Hrun as <-.
  destruct (scope_run_origin _ _ _ _ _ _ _ Hpost Hvar) as [H|H];
    [|assumption].
  rewrite scope_declarations_set, String.eqb_refl in H. destruct H.
Qed.

Lemma scope_redeclared_drops_earlier_variables_witness :
  VcdSimulation.scope_vars
    ([TokScope (ScopeDecl.mk "u1"); TokVar (VarDecl.mk 1 "!" "a" NoIndex);
      TokOther KUpscope ""]
       ++ TokScope (ScopeDecl.mk "u1")
       :: [TokVar (VarDecl.mk 1 "#" "b" NoIndex)])
  = Ok [("u1", [("b", [(NoIndex, VarDecl.mk 1 "#" "b" NoIndex)])])]
  /\ In (TokVar (VarDecl.mk 1 "#" "b" NoIndex))
       [TokVar (VarDecl.mk 1 "#" "b" NoIndex)].
Proof.
  split; [reflexivity|].
  apply (scope_redeclared_drops_earlier_variables
           [TokScope (ScopeDecl.mk "u1");
            TokVar (VarDecl.mk 1 "!" "a" NoIndex); TokOther KUpscope ""]
           [TokVar (VarDecl.mk 1 "#" "b" NoIndex)]
           (ScopeDecl.mk "u1")
           [("u1", [("b", [(NoIndex, VarDecl.mk 1 "#" "b" NoIndex)])])]).
  - reflexivity.
  - simpl. now left.
Defined.

(** ** The Timed Change Set: [time_changes] *)

Section TimeChangesMore.
Import VcdSimulation.

Lemma until_marker_cons (token : Token) (rest : list Token) :
  (forall t, token <> TokChangeTime t) ->
  until_marker (token :: rest) = token :: until_marker rest.
Proof. intros Hnm. destruct token; try reflexivity. now contradiction (Hnm t). Qed.

Lemma markers_cons_other (token : Token) (rest : list Token) :
  (forall t, token <> TokChangeTime t) ->
  markers (token :: rest) = markers rest.
Proof.
  intros Hnm. rewrite markers_cons. destruct token; try reflexivity.
  now contradiction (Hnm t).
Qed.

Lemma time_step_other (st : option Z * TimeChanges) (token : Token) :
  is_timeline token = false -> time_changes_step st token = Ok st.
Proof.
  unfold is_timeline. intros Hk. apply orb_false_iff in Hk.
  destruct Hk as [Ht Hr]. destruct st as [time acc].
  unfold time_changes_step. now rewrite Ht, Hr.
Qed.

Lemma run_none_outcome (tokens : list Token) (acc : TimeChanges) :
  match for_each time_changes_step (None, acc) tokens with
  | Ok _ => recorded (until_marker tokens) = []
  | Raise e => e = UnboundLocalError /\ recorded (until_marker tokens) <> []
  end.
Proof.
  induction tokens as [|token rest IH]; [reflexivity | rewrite for_each_cons].
  destruct (marker_dec token) as [[t1 ->]|Hnm].
  - rewrite step_marker. cbn [bind snd].
    destruct (run_from_marker_total rest t1 (dict_set Z.eqb t1 [] acc))
      as (t' & acc' & -> & _); [|reflexivity].
    rewrite (dict_get_set_same Z.eqb Z.eqb_eq). discriminate.
  - rewrite (step_not_marker _ _ _ Hnm), (until_marker_cons _ _ Hnm),
      (recorded_cons token (until_marker rest)).
    destruct (recorded_single token) as [->|[change ->]]; cbn [bind app].
    + exact IH.
    + split; [reflexivity | discriminate].
Qed.

(** The keys after the loop are the keys before it and the markers it ran
    over. *)
Lemma run_keys_set (tokens : list Token) :
  forall time acc time' acc' t,
    for_each time_changes_step (time, acc) tokens = Ok (time', acc') ->
    In t (map fst acc') <-> In t (map fst acc) \/ In t (markers tokens).
Proof.
  induction tokens as [|token rest IH]; intros time acc time' acc' t Hrun.
  - simpl in Hrun. injection Hrun as <- <-. simpl. tauto.
  - rewrite for_each_cons in Hrun.
    destruct (marker_dec token) as [[t1 ->]|Hnm].
    + rewrite markers_cons.
      rewrite step_marker in Hrun. cbn [bind snd] in Hrun.
      rewrite (IH _ _ _ _ t Hrun), (dict_set_keys Z.eqb). unfold dict_mem.
      destruct (dict_get Z.eqb t1 acc) as [l|] eqn:Hget.
      * apply (dict_get_In Z.eqb Z.eqb_eq) in Hget.
        apply (in_map fst) in Hget. simpl in *.
        split; [tauto|]. intros [H|[<-|H]]; tauto.
      * rewrite in_app_iff. simpl. tauto.
    + rewrite (markers_cons_other _ _ Hnm).
      rewrite (step_not_marker _ _ _ Hnm) in Hrun.
      destruct (recorded [token]) as [|change ?]; cbn [bind] in Hrun.
      * exact (IH _ _ _ _ t Hrun).
      * destruct time as [t0|]; [|discriminate]. unfold dict_getitem in Hrun.
        destruct (dict_get Z.eqb t0 acc) as [changes|] eqn:Hget;
          [|discriminate]. cbn [bind] in Hrun.
        rewrite (IH _ _ _ _ t Hrun), (dict_set_keys Z.eqb). unfold dict_mem.
        rewrite Hget. reflexivity.
Qed.

(** With pairwise different markers the current timestamp is the last key,
    every marker opens a new key, and every recorded change stays. *)
Lemma run_distinct (tokens : list Token) :
  forall t acc l time' acc',
    NoDup (markers tokens) ->
    (forall m, In m (markers tokens) -> m <> t /\ ~ In m (map fst acc)) ->
    ~ In t (map fst acc) ->
    for_each time_changes_step (Some t, acc ++ [(t, l)]) tokens
    = Ok (time', acc') ->
    map fst acc' = map fst acc ++ t :: markers tokens
    /\ List.concat (map snd acc') = List.concat (map snd acc) ++ l ++ recorded tokens.
Proof.
  induction tokens as [|token rest IH];
    intros t acc l time' acc' Hnd Hfresh Hnew Hrun.
  - simpl in Hrun. injection Hrun as <- <-.
    rewrite !map_app, concat_app. simpl. now rewrite !app_nil_r.
  - rewrite for_each_cons in Hrun. rewrite recorded_cons.
    destruct (marker_dec token) as [[t1 ->]|Hnm].
    + rewrite markers_cons in *.
      rewrite step_marker in Hrun. cbn [bind snd] in Hrun.
      inversion Hnd as [|? ? Hnot Hnd']; subst.
      destruct (Hfresh t1 (or_introl eq_refl)) as [Hne Hout].
      assert (Hkeys : ~ In t1 (map fst (acc ++ [(t, l)]))).
      { rewrite map_app, in_app_iff. simpl. intros [H|[H|[]]]; auto. }
      rewrite (dict_set_fresh Z.eqb Z.eqb_eq _ _ _ Hkeys) in Hrun.
      assert (Hfresh' : forall m, In m (markers rest) ->
                          m <> t1 /\ ~ In m (map fst (acc ++ [(t, l)]))).
      { intros m Hm. split; [intros ->; contradiction|].
        destruct (Hfresh m (or_intror Hm)) as [Hmt Hmacc].
        rewrite map_app, in_app_iff. simpl. intros [H|[H|[]]]; auto. }
      destruct (IH _ _ _ _ _ Hnd' Hfresh' Hkeys Hrun) as [-> ->].
      rewrite !map_app, concat_app. simpl.
      rewrite <- ?app_assoc, ?app_nil_r. simpl. now split.
    + rewrite (markers_cons_other _ _ Hnm) in *.
      rewrite (step_not_marker _ _ _ Hnm) in Hrun.
      destruct (recorded_single token) as [Hr|[change Hr]];
        rewrite Hr in *; cbn [bind app] in *.
      * exact (IH _ _ _ _ _ Hnd Hfresh Hnew Hrun).
      * unfold dict_getitem in Hrun.
        rewrite (dict_get_last Z.eqb Z.eqb_eq _ _ _ Hnew) in Hrun.
        cbn [bind] in Hrun.
        rewrite (dict_set_last Z.eqb Z.eqb_eq _ _ _ _ Hnew) in Hrun.
        destruct (IH _ _ _ _ _ Hnd Hfresh Hnew Hrun) as [-> ->].
        rewrite <- !app_assoc. now split.
Qed.

Lemma run_none_distinct (tokens : list Token) :
  forall time' acc',
    NoDup (markers tokens) ->
    for_each time_changes_step (None, []) tokens = Ok (time', acc') ->
    map fst acc' = markers tokens
    /\ List.concat (map snd acc') = recorded tokens.
Proof.
  induction tokens as [|token rest IH]; intros time' acc' Hnd Hrun.
  - simpl in Hrun. injection Hrun as <- <-. now split.
  - rewrite for_each_cons in Hrun. rewrite recorded_cons.
    destruct (marker_dec token) as [[t1 ->]|Hnm].
    + rewrite markers_cons in *.
      rewrite step_marker in Hrun. cbn [bind snd dict_set] in Hrun.
      inversion Hnd as [|? ? Hnot Hnd']; subst.
      assert (Hfresh : forall m, In m (markers rest) ->
                         m <> t1 /\ ~ In m (map fst (@nil (Z * list Change.t)))).
      { intros m Hm. split; [intros ->; contradiction | intros []]. }
      exact (run_distinct rest t1 [] [] _ _ Hnd' Hfresh (fun H => H) Hrun).
    + rewrite (markers_cons_other _ _ Hnm) in *.
      rewrite (step_not_marker _ _ _ Hnm) in Hrun.
      destruct (recorded_single token) as [Hr|[change Hr]];
        rewrite Hr in *; cbn [bind app] in *;
        [exact (IH _ _ Hnd Hrun) | discriminate].
Qed.

End TimeChangesMore.

(** X14. [time_changes] raises exactly when a scalar or vector change comes
    before the first timestamp marker, and the exception is then
    UnboundLocalError; on every other token sequence it returns. *)
Theorem time_changes_raises_iff_change_before_marker (tokens : list Token) :
  match VcdSimulation.time_changes tokens with
  | Ok _ => recorded (until_marker tokens) = []
  | Raise e => e = UnboundLocalError /\ recorded (until_marker tokens) <> []
  end.
Proof.
  unfold VcdSimulation.time_changes.
  pose proof (run_none_outcome tokens []) as H.
  destruct (for_each VcdSimulation.time_changes_step (None, []) tokens)
    as [[time acc]|e]; exact H.
Qed.

(** X15. [time_changes] looks at the timestamp markers and at the scalar
    and vector changes only: it gives the same result, or the same
    exception, on the token sequence with every other token taken out. *)
Theorem time_changes_only_timeline (tokens : list Token) :
  VcdSimulation.time_changes tokens
  = VcdSimulation.time_changes (filter is_timeline tokens).
Proof.
  unfold VcdSimulation.time_changes. f_equal. symmetry.
  apply for_each_filter. intros s x. apply time_step_other.
Qed.

(** X16. The timestamps of the Timed Change Set are pairwise different, and
    they are exactly the timestamps that some marker of the token sequence
    carries. *)
Theorem time_changes_keys_are_markers
    (tokens : list Token) (tc : Dict Z (list Change.t)) :
  VcdSimulation.time_changes tokens = Ok tc ->
  NoDup (dict_keys tc)
  /\ forall t, In t (dict_keys tc) <-> In t (markers tokens).
Proof.
  intros Htc. split; [now apply (time_changes_NoDup tokens)|].
  unfold VcdSimulation.time_changes in Htc.
  destruct (for_each VcdSimulation.time_changes_step (None, []) tokens)
    as [[time acc]|] eqn:Hrun; [|discriminate].
  cbn [bind] in Htc. injection Htc as <-. intros t.
  rewrite (run_keys_set _ _ _ _ _ t Hrun). simpl. tauto.
Qed.

Lemma time_changes_keys_are_markers_witness :
  NoDup (dict_keys [(0, [Change.mk "!" (VStr "1")]);
                    (5, [Change.mk "!" (VStr "1")])])
  /\ forall t,
       In t (dict_keys [(0, [Change.mk "!" (VStr "1")]);
                        (5, [Change.mk "!" (VStr "1")])])
       <-> In t (markers redump).
Proof.
  apply (time_changes_keys_are_markers redump). reflexivity.
Defined.

(** X17. When the markers of the token sequence carry pairwise different
    timestamps, the Timed Change Set keeps them in source order and loses
    no change: its change lists, one after the other, are the scalar and
    vector changes of the token sequence in source order. *)
Theorem time_changes_keeps_every_change
    (tokens : list Token) (tc : Dict Z (list Change.t)) :
  NoDup (markers tokens) ->
  VcdSimulation.time_changes tokens = Ok tc ->
  dict_keys tc = markers tokens
  /\ List.concat (dict_values tc) = recorded tokens.
Proof.
  intros Hnd Htc. unfold VcdSimulation.time_changes in Htc.
  destruct (for_each VcdSimulation.time_changes_step (None, []) tokens)
    as [[time acc]|] eqn:Hrun; [|discriminate].
  cbn [bind] in Htc. injection Htc as <-.
  exact (run_none_distinct tokens _ _ Hnd Hrun).
Qed.

Lemma time_changes_keeps_every_change_witness :
  dict_keys [(0, [Change.mk "!" (VStr "1")]); (5, [Change.mk "!" (VStr "1")])]
  = markers redump
  /\ List.concat (dict_values [(0, [Change.mk "!" (VStr "1")]);
                          (5, [Change.mk "!" (VStr "1")])])
     = recorded redump.
Proof.
  apply (time_changes_keeps_every_change redump).
  - simpl. repeat constructor; simpl; intuition discriminate.
  - reflexivity.
Defined.

(** ** The channel reconstructor: exceptions and special cases *)

Section SortFacts.

Lemma bit_index_lt_ok (x y : VarDecl.t) (b : bool) :
  bit_index_lt (VarDecl.bit_index x) (VarDecl.bit_index y) = Ok b ->
  (has_int_index x /\ has_int_index y)
  \/ (has_range_index x /\ has_range_index y).
Proof.
  unfold has_int_index, has_range_index.
  destruct (VarDecl.bit_index x), (VarDecl.bit_index y); simpl;
    try discriminate; intros _; [left | right]; split; repeat eexists.
Qed.

Lemma int_not_range (x : VarDecl.t) :
  has_int_index x -> has_range_index x -> False.
Proof. intros [i Hi] (m & l & Hr). congruence. Qed.

Lemma insert_desc_error (x : VarDecl.t) (l : list VarDecl.t) (e : PyError) :
  insert_desc x l = Raise e -> e = TypeError.
Proof.
  induction l as [|y l IH]; simpl; [discriminate|].
  destruct (bit_index_lt _ _) as [[|]|e'] eqn:Hlt; simpl.
  - destruct (insert_desc x l); simpl; [discriminate|].
    intros H; injection H as <-. now apply IH.
  - discriminate.
  - intros H; injection H as <-.
    destruct (VarDecl.bit_index x), (VarDecl.bit_index y); simpl in Hlt;
      congruence.
Qed.

(** [sorted] raises TypeError only. *)
Lemma sorted_desc_error (l : list VarDecl.t) (e : PyError) :
  sorted_desc l = Raise e -> e = TypeError.
Proof.
  induction l as [|x l IH]; simpl; [discriminate|].
  destruct (sorted_desc l) as [s|e']; simpl.
  - apply insert_desc_error.
  - intros H; injection H as <-. now apply IH.
Qed.

Lemma sorted_desc_shape (l s : list VarDecl.t) :
  sorted_desc l = Ok s -> sortable l.
Proof.
  unfold sortable. revert s. induction l as [|x l IH]; intros s; simpl.
  - intros _. left. lia.
  - destruct (sorted_desc l) as [s'|] eqn:Hl; simpl; [|discriminate].
    intros Hins. pose proof (sorted_desc_perm _ _ Hl) as Hperm.
    destruct s' as [|y s''].
    + apply Permutation_sym, Permutation_nil in Hperm. subst l.
      left. simpl. lia.
    + simpl in Hins.
      destruct (bit_index_lt _ _) as [b|] eqn:Hlt; simpl in Hins;
        [|discriminate].
      apply bit_index_lt_ok in Hlt.
      assert (Hy : In y l).
      { eapply Permutation_in; [apply Permutation_sym; exact Hperm|].
        now left. }
      right. destruct (IH _ eq_refl) as [Hlen|[Hint|Hrange]].
      * destruct l as [|y0 [|? ?]]; simpl in Hlen; try lia; [destruct Hy|].
        destruct Hy as [->|[]].
        destruct Hlt as [[Hx Hy]|[Hx Hy]]; [left | right];
          repeat constructor; assumption.
      * left. constructor; [|assumption].
        rewrite Forall_forall in Hint. specialize (Hint y Hy).
        destruct Hlt as [[Hx _]|[_ Hr]]; [assumption|].
        exfalso. eapply int_not_range; eassumption.
      * right. constructor; [|assumption].
        rewrite Forall_forall in Hrange. specialize (Hrange y Hy).
        destruct Hlt as [[_ Hi]|[Hx _]]; [|assumption].
        exfalso. eapply int_not_range; eassumption.
Qed.

Lemma insert_desc_total (x : VarDecl.t) (l : list VarDecl.t) :
  Forall has_int_index (x :: l) \/ Forall has_range_index (x :: l) ->
  exists s, insert_desc x l = Ok s.
Proof.
  induction l as [|y l IH]; simpl; [eauto|]. intros Hshape.
  assert (Hlt : exists b, bit_index_lt (VarDecl.bit_index x)
                            (VarDecl.bit_index y) = Ok b).
  { destruct Hshape as [H|H]; inversion H as [|? ? Hx Hl]; subst;
      inversion Hl as [|? ? Hy _]; subst.
    - destruct Hx as [i ->], Hy as [j ->]. simpl. eauto.
    - destruct Hx as (a & b & ->), Hy as (c & d & ->). simpl. eauto. }
  destruct Hlt as [b ->]. simpl. destruct b; [|eauto].
  destruct IH as [s ->]; [|simpl; eauto].
  destruct Hshape as [H|H]; [left | right];
    inversion H as [|? ? Hx Hl]; subst; inversion Hl; subst;
    now constructor.
Qed.

Lemma sorted_desc_total (l : list VarDecl.t) :
  sortable l -> exists s, sorted_desc l = Ok s.
Proof.
  intros Hshape.
  assert (Hhom : forall l0, Forall has_int_index l0 \/ Forall has_range_index l0 ->
                        exists s, sorted_desc l0 = Ok s).
  { induction l0 as [|x l0 IH]; intros H; simpl; [eauto|].
    destruct IH as [s Hs].
    { destruct H as [H|H]; [left | right]; now inversion H. }
    rewrite Hs. simpl. apply insert_desc_total.
    pose proof (sorted_desc_perm _ _ Hs) as Hperm.
    destruct H as [H|H]; [left | right]; inversion H as [|? ? Hx Hl]; subst;
      (constructor; [assumption|]); rewrite Forall_forall in *;
      intros y Hy; apply Hl;
      (eapply Permutation_in; [apply Permutation_sym; exact Hperm|]);
      assumption. }
  destruct Hshape as [Hlen|Hhom']; [|now apply Hhom].
  destruct l as [|x [|? ?]]; simpl in Hlen; try lia; simpl; eauto.
Qed.

End SortFacts.

Section RejectFacts.
Import VcdSimulation.

Lemma list_setitem_out_of_range {A : Type} (l : list A) (index : Z) (v : A) :
  ~ (- Z.of_nat (List.length l) <= index < Z.of_nat (List.length l)) ->
  list_setitem l index v = Raise IndexError.
Proof.
  intros Hout. unfold list_setitem.
  destruct (Z.ltb_spec index 0).
  - destruct (Z.leb_spec 0 (index + Z.of_nat (List.length l))); [lia|].
    reflexivity.
  - destruct (Z.leb_spec 0 index); [|lia].
    destruct (Z.ltb_spec index (Z.of_nat (List.length l))); [lia|].
    reflexivity.
Qed.

Lemma var_loop_reject (n : nat) (e : PyError) (change : Change.t)
    (value : list PyVal) (flag : bool) (vars : list VarDecl.t) :
  Forall (rejects n e) vars ->
  List.length value = n ->
  for_each (var_step change) (value, flag) vars =
  if touches vars [change] then Raise e else Ok (value, flag).
Proof.
  intros Hall Hlen. unfold touches. simpl. rewrite orb_false_r.
  induction Hall as [|var l Hvar _ IH]; [reflexivity|].
  rewrite for_each_cons. unfold var_step at 1. simpl.
  destruct (String.eqb _ _); [|exact IH]. simpl.
  unfold rejects in Hvar.
  destruct (VarDecl.bit_index var) as [|i|? ?].
  - destruct Hvar.
  - destruct Hvar as [-> Hout]. rewrite <- Hlen in Hout.
    now rewrite (list_setitem_out_of_range _ _ _ Hout).
  - now subst e.
Qed.

Lemma change_loop_reject (n : nat) (e : PyError) (vars : list VarDecl.t)
    (changes : list Change.t) (value : list PyVal) (flag : bool) :
  Forall (rejects n e) vars ->
  List.length value = n ->
  for_each (change_step vars) (value, flag) changes =
  if touches vars changes then Raise e else Ok (value, flag).
Proof.
  intros Hall Hlen. induction changes as [|change changes IH];
    [reflexivity|].
  rewrite for_each_cons. unfold change_step at 1.
  rewrite (var_loop_reject n e _ _ _ _ Hall Hlen).
  unfold touches in *. simpl. rewrite orb_false_r.
  destruct (existsb _ vars); [reflexivity | exact IH].
Qed.

Lemma time_loop_reject (n : nat) (e : PyError) (vars : list VarDecl.t)
    (items : Dict Z (list Change.t)) (value : list PyVal)
    (acc : list ChannelEvent.t) :
  Forall (rejects n e) vars ->
  List.length value = n ->
  for_each (time_step vars) (value, acc) items =
  if existsb (fun item => touches vars (snd item)) items
  then Raise e else Ok (value, acc).
Proof.
  intros Hall Hlen. induction items as [|[t changes] items IH];
    [reflexivity|].
  rewrite for_each_cons. unfold time_step at 1.
  rewrite (change_loop_reject n e _ _ _ _ Hall Hlen). simpl.
  destruct (touches vars changes); [reflexivity | exact IH].
Qed.

End RejectFacts.

Section ReconstructorFacts.
Import VcdSimulation.

Lemma addressed_iff (vars : list VarDecl.t) (items : Dict Z (list Change.t)) :
  addressed vars items <->
  existsb (fun item => touches vars (snd item)) items = true.
Proof.
  unfold addressed. rewrite existsb_exists. split.
  - intros (t & changes & change & var & Hitem & Hc & Hv & Hid).
    exists (t, changes). split; [assumption|]. apply touches_iff. eauto.
  - intros ([t changes] & Hitem & Ht). apply touches_iff in Ht.
    destruct Ht as (change & var & Hc & Hv & Hid).
    exists t, changes, change, var. auto.
Qed.

Lemma addressed_perm (vars vars' : list VarDecl.t)
    (items : Dict Z (list Change.t)) :
  Permutation vars vars' -> addressed vars items -> addressed vars' items.
Proof.
  intros Hperm (t & changes & change & var & Hitem & Hc & Hv & Hid).
  exists t, changes, change, var. repeat split; try assumption.
  eapply Permutation_in; eassumption.
Qed.

(** A group in which every assignment raises [e] makes [to_events] raise
    [e] as soon as one of its declarations is addressed. *)
Lemma to_events_reject (tokens : list Token) (vars : Dict BitIndex VarDecl.t)
    (tc : Dict Z (list Change.t)) (e : PyError) :
  time_changes tokens = Ok tc ->
  sortable (dict_values vars) ->
  Forall (rejects (List.length vars) e) (dict_values vars) ->
  addressed (dict_values vars) tc ->
  to_events tokens vars = Raise e.
Proof.
  intros Htc Hshape Hrej Haddr. unfold to_events.
  destruct (sorted_desc_total _ Hshape) as [vars' Hsort].
  pose proof (sorted_desc_perm _ _ Hsort) as Hperm.
  rewrite Hsort, Htc. cbn [bind].
  assert (Hrej' : Forall (rejects (List.length vars) e) vars').
  { rewrite Forall_forall in *. intros v Hv. apply Hrej.
    eapply Permutation_in; [apply Permutation_sym|]; eassumption. }
  rewrite (time_loop_reject _ e vars' tc _ [] Hrej')
    by apply repeat_length.
  apply (addressed_perm _ _ _ Hperm), addressed_iff in Haddr.
  now rewrite Haddr.
Qed.

Lemma var_loop_untouched (change : Change.t) (vars : list VarDecl.t)
    (st : list PyVal * bool) :
  touches vars [change] = false ->
  for_each (var_step change) st vars = Ok st.
Proof.
  unfold touches. cbn [existsb]. rewrite orb_false_r.
  induction vars as [|var l IH]; [reflexivity|].
  cbn [existsb]. intros Hno. apply orb_false_iff in Hno.
  destruct Hno as [Hv Hl]. rewrite for_each_cons.
  unfold var_step at 1. destruct st as [value flag]. rewrite Hv.
  cbn [bind]. now apply IH.
Qed.

Lemma change_loop_untouched (vars : list VarDecl.t) (changes : list Change.t)
    (st : list PyVal * bool) :
  touches vars changes = false ->
  for_each (change_step vars) st changes = Ok st.
Proof.
  unfold touches. induction changes as [|change changes IH]; [reflexivity|].
  cbn [existsb]. intros Hno. apply orb_false_iff in Hno.
  destruct Hno as [Hc Hcs]. rewrite for_each_cons. unfold change_step at 1.
  rewrite var_loop_untouched.
  - cbn [bind]. now apply IH.
  - unfold touches. cbn [existsb]. now rewrite Hc.
Qed.

Lemma time_loop_untouched (vars : list VarDecl.t)
    (items : Dict Z (list Change.t)) (st : list PyVal * list ChannelEvent.t) :
  existsb (fun item => touches vars (snd item)) items = false ->
  for_each (time_step vars) st items = Ok st.
Proof.
  induction items as [|[t changes] items IH]; [reflexivity|].
  cbn [existsb snd]. intros Hno. apply orb_false_iff in Hno.
  destruct Hno as [Ht Hrest]. rewrite for_each_cons.
  unfold time_step at 1. destruct st as [value acc].
  rewrite (change_loop_untouched _ _ _ Ht). cbn [bind]. now apply IH.
Qed.

End ReconstructorFacts.

(** X18. A group of two or more sibling declarations whose bit-indices are
    neither all integers nor all ranges (a scalar declaration and a
    declaration of one bit under the same reference name, say) makes
    [to_events] raise TypeError, whatever the token sequence holds: the
    sort of the declarations cannot compare their bit-indices. *)
Theorem to_events_mixed_group_raises
    (tokens : list Token) (vars : Dict BitIndex VarDecl.t) :
  (2 <= List.length vars)%nat ->
  ~ Forall has_int_index (dict_values vars) ->
  ~ Forall has_range_index (dict_values vars) ->
  VcdSimulation.to_events tokens vars = Raise TypeError.
Proof.
  intros Hlen Hint Hrange. unfold VcdSimulation.to_events.
  destruct (sorted_desc (dict_values vars)) as [s|e] eqn:Hsort.
  - exfalso. apply sorted_desc_shape in Hsort.
    destruct Hsort as [Hle|[H|H]]; [|contradiction|contradiction].
    unfold dict_values in Hle. rewrite length_map in Hle. lia.
  - apply sorted_desc_error in Hsort. now subst e.
Qed.

Lemma to_events_mixed_group_raises_witness :
  VcdSimulation.to_events scenario_e
    [(NoIndex, VarDecl.mk 1 "!" "data" NoIndex); (Idx 0, bit0)]
  = Raise TypeError.
Proof.
  apply (to_events_mixed_group_raises scenario_e
           [(NoIndex, VarDecl.mk 1 "!" "data" NoIndex); (Idx 0, bit0)]).
  - simpl. lia.
  - intros H. inversion H as [|? ? [i Hi] _]. discriminate.
  - intros H. inversion H as [|? ? (m & l & Hr) _]. discriminate.
Defined.

(** X19. A group whose declarations all carry a range [msb:lsb] as
    bit-index, the usual declaration of a vector, makes [to_events] raise
    TypeError as soon as the Timed Change Set holds a change of one of
    them: a pair is no list index. *)
Theorem to_events_range_index_raises
    (tokens : list Token) (vars : Dict BitIndex VarDecl.t)
    (tc : Dict Z (list Change.t)) :
  VcdSimulation.time_changes tokens = Ok tc ->
  Forall has_range_index (dict_values vars) ->
  addressed (dict_values vars) tc ->
  VcdSimulation.to_events tokens vars = Raise TypeError.
Proof.
  intros Htc Hrange Haddr.
  apply (to_events_reject tokens vars tc TypeError); try assumption.
  - right. now right.
  - rewrite Forall_forall in *. intros v Hv.
    destruct (Hrange v Hv) as (m & l & Hr). unfold rejects. now rewrite Hr.
Qed.

Lemma to_events_range_index_raises_witness :
  VcdSimulation.to_events
    [TokChangeTime 0; TokChangeVector (Change.mk "#" (VInt 5))]
    [(Range 7 0, VarDecl.mk 8 "#" "data" (Range 7 0))]
  = Raise TypeError.
Proof.
  apply (to_events_range_index_raises
           [TokChangeTime 0; TokChangeVector (Change.mk "#" (VInt 5))]
           [(Range 7 0, VarDecl.mk 8 "#" "data" (Range 7 0))]
           [(0, [Change.mk "#" (VInt 5)])]).
  - reflexivity.
  - repeat constructor. now exists 7, 0.
  - exists 0, [Change.mk "#" (VInt 5)], (Change.mk "#" (VInt 5)),
      (VarDecl.mk 8 "#" "data" (Range 7 0)). simpl. tauto.
Defined.

(** X20. A group whose declarations all carry an integer bit-index outside
    -N..N-1, N the number of declarations of the group (a single declared
    bit [flag[3]], say), makes [to_events] raise IndexError as soon as the
    Timed Change Set holds a change of one of them. *)
Theorem to_events_index_out_of_range_raises
    (tokens : list Token) (vars : Dict BitIndex VarDecl.t)
    (tc : Dict Z (list Change.t)) :
  VcdSimulation.time_changes tokens = Ok tc ->
  (forall var, In var (dict_values vars) ->
     exists i, VarDecl.bit_index var = Idx i
               /\ ~ (- Z.of_nat (List.length vars) <= i
                     < Z.of_nat (List.length vars))) ->
  addressed (dict_values vars) tc ->
  VcdSimulation.to_events tokens vars = Raise IndexError.
Proof.
  intros Htc Hout Haddr.
  apply (to_events_reject tokens vars tc IndexError); try assumption.
  - right. left. apply Forall_forall. intros v Hv.
    destruct (Hout v Hv) as (i & Hi & _). now exists i.
  - apply Forall_forall. intros v Hv.
    destruct (Hout v Hv) as (i & Hi & Hrange). unfold rejects.
    now rewrite Hi.
Qed.

Lemma to_events_index_out_of_range_raises_witness :
  VcdSimulation.to_events
    [TokChangeTime 0; TokChangeScalar (Change.mk "#" (VStr "1"))]
    [(Idx 3, VarDecl.mk 1 "#" "flag" (Idx 3))]
  = Raise IndexError.
Proof.
  apply (to_events_index_out_of_range_raises
           [TokChangeTime 0; TokChangeScalar (Change.mk "#" (VStr "1"))]
           [(Idx 3, VarDecl.mk 1 "#" "flag" (Idx 3))]
           [(0, [Change.mk "#" (VStr "1")])]).
  - reflexivity.
  - intros var [<-|[]]. exists 3. split; [reflexivity | simpl; lia].
  - exists 0, [Change.mk "#" (VStr "1")], (Change.mk "#" (VStr "1")),
      (VarDecl.mk 1 "#" "flag" (Idx 3)). simpl. tauto.
Defined.

(** X21. A group that the sort accepts and of which no declaration is
    addressed by a change of the Timed Change Set gets the empty event
    sequence, without an exception, whatever its bit-indices are. *)
Theorem to_events_unaddressed_group_empty
    (tokens : list Token) (vars : Dict BitIndex VarDecl.t)
    (tc : Dict Z (list Change.t)) :
  VcdSimulation.time_changes tokens = Ok tc ->
  sortable (dict_values vars) ->
  ~ addressed (dict_values vars) tc ->
  VcdSimulation.to_events tokens vars = Ok [].
Proof.
  intros Htc Hshape Hno. unfold VcdSimulation.to_events.
  destruct (sorted_desc_total _ Hshape) as [vars' Hsort].
  pose proof (sorted_desc_perm _ _ Hsort) as Hperm.
  rewrite Hsort, Htc. cbn [bind].
  rewrite time_loop_untouched; [reflexivity|].
  destruct (existsb _ tc) eqn:Hex; [|reflexivity].
  exfalso. apply Hno. apply addressed_iff in Hex.
  eapply addressed_perm; [apply Permutation_sym|]; eassumption.
Qed.

Lemma to_events_unaddressed_group_empty_witness :
  VcdSimulation.to_events stray_change
    [(Range 7 0, VarDecl.mk 8 "!" "bus" (Range 7 0))]
  = Ok [].
Proof.
  apply (to_events_unaddressed_group_empty stray_change
           [(Range 7 0, VarDecl.mk 8 "!" "bus" (Range 7 0))]
           [(0, [Change.mk "?" (VStr "1")])]).
  - reflexivity.
  - left. simpl. lia.
  - intros (t & changes & change & var & Hitem & Hc & Hv & Hid).
    destruct Hitem as [Heq|[]]. injection Heq as <- <-.
    destruct Hc as [<-|[]]. destruct Hv as [<-|[]]. discriminate.
Defined.

Section ScalarChannel.
Import VcdSimulation.

Variable d : VarDecl.t.
Hypothesis slot :
  VarDecl.bit_index d = NoIndex \/ VarDecl.bit_index d = Idx 0
  \/ VarDecl.bit_index d = Idx (-1).

Lemma string_append_nil_r (s : string) : (s ++ "")%string = s.
Proof. induction s as [|c s IH]; simpl; [reflexivity | now rewrite IH]. Qed.

Lemma var_step_scalar (change : Change.t) (before : PyVal)
    (found : option PyVal) :
  var_step change (scalar_state before found) d =
  Ok (scalar_state before
        (if String.eqb (Change.id_code change) (VarDecl.id_code d)
         then Some (Change.value change) else found)).
Proof.
  unfold var_step, scalar_state.
  destruct (String.eqb _ _); [|reflexivity].
  destruct slot as [-> | [-> | ->]]; reflexivity.
Qed.

Lemma change_loop_scalar (before : PyVal) (changes : list Change.t) :
  forall found,
    for_each (change_step [d]) (scalar_state before found) changes =
    Ok (scalar_state before
          (fold_left
             (fun found change =>
                if String.eqb (Change.id_code change) (VarDecl.id_code d)
                then Some (Change.value change) else found)
             changes found)).
Proof.
  induction changes as [|change changes IH]; intros found; [reflexivity|].
  rewrite for_each_cons. unfold change_step at 1.
  rewrite for_each_cons, var_step_scalar. cbn [bind for_each fold_left].
  apply IH.
Qed.

Lemma time_loop_scalar (items : Dict Z (list Change.t)) :
  forall before acc,
    ('(_, acc') <- for_each (time_step [d]) ([before], acc) items ;; Ok acc')
    = for_each
        (fun acc item =>
           evs <- scalar_event (VarDecl.id_code d) item ;; Ok (acc ++ evs))
        acc items.
Proof.
  induction items as [|[t changes] items IH]; intros before acc;
    [reflexivity|].
  rewrite !for_each_cons. unfold time_step at 1.
  change ([before], false) with (scalar_state before None).
  rewrite change_loop_scalar. unfold scalar_event, last_value. cbn [snd fst].
  destruct (fold_left _ changes None) as [[text|k|x]|];
    unfold scalar_state; cbn [bind join_empty].
  - rewrite string_append_nil_r. apply IH.
  - reflexivity.
  - reflexivity.
  - rewrite app_nil_r. apply IH.
Qed.

End ScalarChannel.

Section ChannelHeads.
Import VcdSimulation.

Lemma channel_loop_heads (tokens : list Token) (module : string)
    (channels : Dict string (Dict BitIndex VarDecl.t)) :
  forall acc acc',
    for_each (channel_step tokens module) acc channels = Ok acc' ->
    map (fun c => (Channel.module c, Channel.name c, Channel.size c)) acc' =
    map (fun c => (Channel.module c, Channel.name c, Channel.size c)) acc
      ++ map (fun channel =>
                (module, fst channel, Z.of_nat (List.length (snd channel))))
           channels.
Proof.
  induction channels as [|[channel_name vars] channels IH];
    intros acc acc' Hrun.
  - simpl in Hrun. injection Hrun as <-. simpl. now rewrite app_nil_r.
  - rewrite for_each_cons in Hrun. unfold channel_step at 1 in Hrun.
    destruct (to_events tokens vars) as [events|]; cbn [bind] in Hrun;
      [|discriminate].
    rewrite (IH _ _ Hrun), map_app. simpl. now rewrite <- app_assoc.
Qed.

Lemma scope_loop_heads (tokens : list Token)
    (scopes : Dict string (Dict string (Dict BitIndex VarDecl.t))) :
  forall acc acc',
    for_each (scope_step tokens) acc scopes = Ok acc' ->
    map (fun c => (Channel.module c, Channel.name c, Channel.size c)) acc' =
    map (fun c => (Channel.module c, Channel.name c, Channel.size c)) acc
      ++ group_heads scopes.
Proof.
  induction scopes as [|[module channels] scopes IH]; intros acc acc' Hrun.
  - simpl in Hrun. injection Hrun as <-. simpl. now rewrite app_nil_r.
  - rewrite for_each_cons in Hrun. unfold scope_step at 1 in Hrun.
    destruct (for_each (channel_step tokens module) acc channels)
      as [acc1|] eqn:Hch; cbn [bind] in Hrun; [|discriminate].
    rewrite (IH _ _ Hrun), (channel_loop_heads _ _ _ _ _ Hch).
    unfold group_heads. simpl. now rewrite <- app_assoc.
Qed.

End ChannelHeads.

(** X22. For a group of one declaration without bit-index (or with
    bit-index 0 or -1) the events follow from the Timed Change Set
    timestamp by timestamp: no event where the signal is not written; one
    event with the last value written at the timestamp where that value is
    a [str], whatever its length; TypeError at the first timestamp where it
    is not, as for the integer of a vector change without x or z. *)
Theorem to_events_scalar_signal
    (tokens : list Token) (key : BitIndex) (d : VarDecl.t) :
  VarDecl.bit_index d = NoIndex \/ VarDecl.bit_index d = Idx 0
  \/ VarDecl.bit_index d = Idx (-1) ->
  VcdSimulation.to_events tokens [(key, d)]
  = (items <- VcdSimulation.time_changes tokens ;;
     scalar_events (VarDecl.id_code d) items).
Proof.
  intros Hslot. unfold VcdSimulation.to_events, scalar_events.
  cbn [dict_values map sorted_desc insert_desc bind List.length repeat].
  destruct (VcdSimulation.time_changes tokens) as [items|]; cbn [bind];
    [|reflexivity].
  apply (time_loop_scalar d Hslot).
Qed.

Lemma to_events_scalar_signal_witness :
  VcdSimulation.to_events
    [TokChangeTime 0; TokChangeScalar (Change.mk "!" (VStr "0"));
     TokChangeScalar (Change.mk "!" (VStr "1"));
     TokChangeTime 5; TokChangeVector (Change.mk "!" (VInt 1))]
    [(NoIndex, VarDecl.mk 1 "!" "clk" NoIndex)]
  = Raise TypeError.
Proof.
  rewrite (to_events_scalar_signal _ NoIndex (VarDecl.mk 1 "!" "clk" NoIndex));
    [reflexivity | now left].
Defined.

(** X23. [to_channel] yields exactly one Channel per group of sibling
    declarations of the Declaration Index, in the order of the index, with
    the scope as module, the reference name as name and the number of
    sibling declarations as size. *)
Theorem to_channel_one_channel_per_group
    (tokens : list Token) (chans : list Channel.t) :
  VcdSimulation.to_channel tokens = Ok chans ->
  exists sv,
    VcdSimulation.scope_vars tokens = Ok sv
    /\ map (fun c => (Channel.module c, Channel.name c, Channel.size c)) chans
       = group_heads sv.
Proof.
  unfold VcdSimulation.to_channel. intros Hrun.
  destruct (VcdSimulation.scope_vars tokens) as [sv|]; cbn [bind] in Hrun;
    [|discriminate].
  exists sv. split; [reflexivity|].
  exact (scope_loop_heads _ _ _ _ Hrun).
Qed.

Lemma to_channel_one_channel_per_group_witness :
  exists sv,
    VcdSimulation.scope_vars scenario_e = Ok sv
    /\ map (fun c => (Channel.module c, Channel.name c, Channel.size c))
         [Channel.mk 2 "top" "data" [ChannelEvent.mk 5 "1X"]]
       = group_heads sv.
Proof.
  apply (to_channel_one_channel_per_group scenario_e). reflexivity.
Defined.
